(** * saferplace: the SQL persistence engine (internal/database/sqldatabase)

    A shallow embedding of [sqldatabase.go]: the three relations of
    [createTableQuery] as lists of rows in rowid order, each prepared
    statement as a function on them, and each method of [*Database] as a
    program in a small transaction monad that follows the Go control flow
    (begin, statements, early returns, commit, deferred rollback).

    What is taken from outside the file:
    - [time.Now()] and [uuid.New()] are arguments of the methods that call them;
    - [sort.Sort] is any implementation of its documented contract
      (class [SortImpl]); Go's own is followed for short slices;
    - [distance], defined elsewhere in the package, is an argument;
    - the store is reachable and the context is never cancelled: a statement
      fails only for a reason the data decides (a primary key that is taken,
      no row to scan).

    Around the engine the file follows its users: the handlers of
    [internal/auth] ([index], [callback], [authenticated] and the handler
    [Register] returns) over the same store, with the exchange with GitHub as
    an argument; and the wiring of [internal/cmd/saferplace]
    ([StringsToDependencies], [multiCloser.Close], [ServiceMiddleware],
    [createDependencies] with the order of its map's [range] as an argument
    and the providers' constructors as a class). *)

From Stdlib Require Import ZArith List Ascii String Bool Lia Permutation Sorted.
From Stdlib Require Import Floats.
Import ListNotations.
Local Open Scope string_scope.
Local Open Scope list_scope.
Local Open Scope Z_scope.

(** ** Go values *)

(** Go's [float64] is IEEE 754 binary64, as Rocq's primitive floats are. *)
Definition float64 : Type := PrimFloat.float.

(** Go's [a > b] and [a < b] on [float64]: false as soon as one side is NaN. *)
Definition float64_gt (a b : float64) : bool := PrimFloat.ltb b a.
Definition float64_lt (a b : float64) : bool := PrimFloat.ltb a b.
Definition float64_le (a b : float64) : bool := PrimFloat.leb a b.

(** An integer as the [float64] of the same value (exact below 2^53). *)
Definition float64_of_Z (z : Z) : float64 :=
  if z <? 0
  then PrimFloat.opp (PrimFloat.of_uint63 (Uint63.of_Z (- z)))
  else PrimFloat.of_uint63 (Uint63.of_Z z).

(** [time.Time] as nanoseconds since the Unix epoch; [time.Duration] as
    nanoseconds, saturating at the bounds of [int64] as [Time.Sub] does. *)
Definition Time : Type := Z.
Definition Duration : Type := Z.

Definition time_Second : Duration := 1000000000.
Definition time_Hour : Duration := 3600 * time_Second.
Definition maxDuration : Duration := 2 ^ 63 - 1.
Definition minDuration : Duration := - 2 ^ 63.

Definition Time_Unix (t : Time) : Z := t / time_Second.
Definition time_Unix (sec nsec : Z) : Time := sec * time_Second + nsec.
Definition Time_Add (t : Time) (d : Duration) : Time := t + d.
Definition Time_Sub (t u : Time) : Duration :=
  Z.max minDuration (Z.min maxDuration (t - u)).
Definition time_Since (now t : Time) : Duration := Time_Sub now t.

(** ** The generated API types (api.safer.place/incident/v1, viewer/v1) *)

(** Modelled from the spec: the [incident.Resolution] enumeration is generated
    code that is not in the repository's files.  The glossary lists its four
    values; section 6 gives the labels as the enumerated names.  The zero
    value of the Go type is [RESOLUTION_UNSPECIFIED]. *)
Inductive Resolution : Type :=
| Resolution_RESOLUTION_UNSPECIFIED
| Resolution_RESOLUTION_ACCEPTED
| Resolution_RESOLUTION_ALERTED
| Resolution_RESOLUTION_REJECTED.

Definition Resolution_zero : Resolution := Resolution_RESOLUTION_UNSPECIFIED.

Definition Resolution_String (r : Resolution) : string :=
  match r with
  | Resolution_RESOLUTION_UNSPECIFIED => "RESOLUTION_UNSPECIFIED"
  | Resolution_RESOLUTION_ACCEPTED => "RESOLUTION_ACCEPTED"
  | Resolution_RESOLUTION_ALERTED => "RESOLUTION_ALERTED"
  | Resolution_RESOLUTION_REJECTED => "RESOLUTION_REJECTED"
  end.

Definition all_resolutions : list Resolution :=
  [ Resolution_RESOLUTION_UNSPECIFIED; Resolution_RESOLUTION_ACCEPTED;
    Resolution_RESOLUTION_ALERTED; Resolution_RESOLUTION_REJECTED ].

(** The generated table [Resolution_value], a Go map from label to value. *)
Definition Resolution_value : list (string * Resolution) :=
  map (fun r => (Resolution_String r, r)) all_resolutions.

Fixpoint map_lookup {V : Type} (m : list (string * V)) (k : string) : option V :=
  match m with
  | [] => None
  | (k', v) :: m' => if String.eqb k' k then Some v else map_lookup m' k
  end.

(** Go's [m[k]]: the zero value when the key is absent. *)
Definition Resolution_value_index (label : string) : Resolution :=
  match map_lookup Resolution_value label with
  | Some r => r
  | None => Resolution_zero
  end.

Definition canonical_label (label : string) : bool :=
  existsb (fun r => String.eqb (Resolution_String r) label) all_resolutions.

Record Timestamp : Type := mkTimestamp { Seconds : Z; Nanos : Z }.

Record Coordinates : Type := mkCoordinates { Lat : float64; Lon : float64 }.

(** [incident.Comment]: the three fields the package reads and writes. *)
Record Comment : Type := mkComment {
  Comment_Timestamp : Z;
  AuthorId : string;
  Message : string
}.

(** [incident.Incident]; the two message-typed fields are Go pointers and may
    be nil. *)
Record Incident : Type := mkIncident {
  Id : string;
  Incident_Timestamp : option Timestamp;
  Description : string;
  Incident_Coordinates : option Coordinates;
  Incident_Resolution : Resolution;
  ImageId : string;
  ReviewerComments : list Comment
}.

(** Modelled from the spec: [viewer.Region] is generated code that is not in
    the repository's files.  The spec has the region "supplied in a scaled
    integer encoding", so the four bounds are integers and Go's [/] on them
    is integer division, truncating toward zero. *)
Record Region : Type := mkRegion { North : Z; South : Z; West : Z; East : Z }.

Definition go_div (a b : Z) : Z := Z.quot a b.

(** ** Errors *)

(** The error values the package returns: the two sentinels of
    [safer.place/internal/database], [sql.ErrNoRows], the driver's refusal of
    an insert whose primary key is taken, [errors.New] and [fmt.Errorf] with
    [%w]. *)
Inductive error : Type :=
| database_ErrAlreadyExists
| database_ErrDoesNotExist
| sql_ErrNoRows
| driver_ErrConstraint (table : string)
| errors_New (text : string)
| fmt_Errorf (text : string) (wrapped : error).

Fixpoint error_eqb (a b : error) : bool :=
  match a, b with
  | database_ErrAlreadyExists, database_ErrAlreadyExists => true
  | database_ErrDoesNotExist, database_ErrDoesNotExist => true
  | sql_ErrNoRows, sql_ErrNoRows => true
  | driver_ErrConstraint t, driver_ErrConstraint t' => String.eqb t t'
  | errors_New t, errors_New t' => String.eqb t t'
  | fmt_Errorf t w, fmt_Errorf t' w' => String.eqb t t' && error_eqb w w'
  | _, _ => false
  end.

(** [errors.Is]: the error itself or one it wraps. *)
Fixpoint errors_Is (err target : error) : bool :=
  error_eqb err target
  || match err with
     | fmt_Errorf _ wrapped => errors_Is wrapped target
     | _ => false
     end.

(** What a call of a method comes to: its results, an error, or a run-time
    panic (a nil pointer dereference). *)
Inductive result (A : Type) : Type :=
| returned (a : A)
| failed (err : error)
| panicked.
Arguments returned {A} a.
Arguments failed {A} err.
Arguments panicked {A}.

(** ** The store: the relations of [createTableQuery] *)

Record IncidentRow : Type := mkIncidentRow {
  i_id : string;
  i_timestamp : Z;
  i_description : string;
  i_lat : float64;
  i_lon : float64;
  i_resolution : string;
  i_image : string
}.

Record CommentRow : Type := mkCommentRow {
  c_id : string;
  c_incident_id : string;
  c_timestamp : Z;
  c_author : string;
  c_comment : string;
  c_resolution : string
}.

Record SessionRow : Type := mkSessionRow { s_id : string; s_expiry : Z }.

(** Each relation in rowid order, the order a [SELECT] without [ORDER BY]
    walks it in. *)
Record Store : Type := mkStore {
  incidents : list IncidentRow;
  comments : list CommentRow;
  sessions : list SessionRow
}.

Definition empty_store : Store := mkStore [] [] [].

(** ** Transactions *)

(** A step inside a transaction: go on with a value and the transaction's
    view of the store, return an error, or panic. *)
Inductive step (A : Type) : Type :=
| Continue (a : A) (s : Store)
| Stop (err : error)
| Crash.
Arguments Continue {A} a s.
Arguments Stop {A} err.
Arguments Crash {A}.

Definition Tx (A : Type) : Type := Store -> step A.

Definition ret {A : Type} (a : A) : Tx A := fun s => Continue a s.

Definition bind {A B : Type} (m : Tx A) (k : A -> Tx B) : Tx B :=
  fun s =>
    match m s with
    | Continue a s' => k a s'
    | Stop err => Stop err
    | Crash => Crash
    end.

Declare Scope tx_scope.
Delimit Scope tx_scope with tx.
Notation "x <- m ;; k" := (bind m (fun x => k))
  (at level 100, m at next level, right associativity) : tx_scope.
Notation "m ;; k" := (bind m (fun _ => k))
  (at level 100, right associativity) : tx_scope.

(** [return err] *)
Definition throw {A : Type} (err : error) : Tx A := fun _ => Stop err.

(** A statement that only reads. *)
Definition query {A : Type} (q : Store -> A) : Tx A := fun s => Continue (q s) s.

(** [if _, err := stmt.ExecContext(...); err != nil { return fmt.Errorf(text, err) }] *)
Definition exec (text : string) (stmt : Store -> error + Store) : Tx unit :=
  fun s =>
    match stmt s with
    | inr s' => Continue tt s'
    | inl err => Stop (fmt_Errorf text err)
    end.

(** Reading through a Go pointer: a nil pointer panics. *)
Definition deref {A : Type} (p : option A) : Tx A :=
  fun s => match p with Some a => Continue a s | None => Crash end.

(** [BeginTx], the body, then [Commit]; on any other way out the deferred
    [Rollback] drops what the body wrote. *)
Definition transaction {A : Type} (body : Tx A) (db : Store) : result A * Store :=
  match body db with
  | Continue a s => (returned a, s)
  | Stop err => (failed err, db)
  | Crash => (panicked, db)
  end.

(** ** The prepared statements *)

Definition has_key {R : Type} (key : R -> string) (k : string) (rows : list R) : bool :=
  existsb (fun r => String.eqb (key r) k) rows.

(** [SELECT id FROM incidents WHERE id=?] *)
Definition hasIncidentStmt (id : string) (s : Store) : list string :=
  map i_id (filter (fun r => String.eqb (i_id r) id) (incidents s)).

(** [saveIncidentQuery]; [id] is the primary key. *)
Definition saveIncidentStmt (id : string) (timestamp : Z) (description : string)
    (lat lon : float64) (resolution image : string) (s : Store) : error + Store :=
  if has_key i_id id (incidents s)
  then inl (driver_ErrConstraint "incidents")
  else inr (mkStore
              (incidents s ++ [mkIncidentRow id timestamp description lat lon resolution image])
              (comments s) (sessions s)).

(** [updateResolutionQuery] *)
Definition set_resolution (resolution id : string) (r : IncidentRow) : IncidentRow :=
  if String.eqb (i_id r) id
  then mkIncidentRow (i_id r) (i_timestamp r) (i_description r) (i_lat r) (i_lon r)
         resolution (i_image r)
  else r.

Definition updateResolutionStmt (resolution id : string) (s : Store) : error + Store :=
  inr (mkStore (map (set_resolution resolution id) (incidents s)) (comments s) (sessions s)).

(** [saveCommentQuery]; [id] is the primary key. *)
Definition saveCommentStmt (id incident_id : string) (timestamp : Z)
    (author comment resolution : string) (s : Store) : error + Store :=
  if has_key c_id id (comments s)
  then inl (driver_ErrConstraint "comments")
  else inr (mkStore (incidents s)
              (comments s ++ [mkCommentRow id incident_id timestamp author comment resolution])
              (sessions s)).

(** [viewIncidentQuery] *)
Definition viewIncidentStmt (id : string) (s : Store) : list IncidentRow :=
  filter (fun r => String.eqb (i_id r) id) (incidents s).

(** [viewCommentsQuery] *)
Definition viewCommentsStmt (incident_id : string) (s : Store) : list CommentRow :=
  filter (fun r => String.eqb (c_incident_id r) incident_id) (comments s).

(** [incidentsWithoutReviewQuery] *)
Definition incidentsWithoutReviewStmt (resolution : string) (s : Store) : list IncidentRow :=
  filter (fun r => String.eqb (i_resolution r) resolution) (incidents s).

(** [incidentsInRadiusQuery].  [%q] writes the two labels in double quotes;
    no column has such a name, and SQLite then reads them as string literals. *)
Definition incidentsInRadiusStmt (s : Store) : list IncidentRow :=
  filter (fun r =>
            String.eqb (i_resolution r) (Resolution_String Resolution_RESOLUTION_ACCEPTED)
            || String.eqb (i_resolution r) (Resolution_String Resolution_RESOLUTION_ALERTED))
         (incidents s).

(** A [REAL] column against an integer parameter. *)
Definition real_lt_int (x : float64) (n : Z) : bool := float64_lt x (float64_of_Z n).
Definition real_gt_int (x : float64) (n : Z) : bool := float64_gt x (float64_of_Z n).

(** The five conditions shared by [incidentsInRegionQuery] and
    [alertingIncidentsQuery]. *)
Definition since_and_region (since north south west east : Z) (r : IncidentRow) : bool :=
  (i_timestamp r >? since)
  && real_lt_int (i_lat r) north
  && real_gt_int (i_lat r) south
  && real_gt_int (i_lon r) west
  && real_lt_int (i_lon r) east.

(** [incidentsInRegionQuery] *)
Definition incidentsInRegionStmt (since north south west east : Z) (s : Store)
    : list IncidentRow :=
  filter (fun r =>
            (String.eqb (i_resolution r) (Resolution_String Resolution_RESOLUTION_ACCEPTED)
             || String.eqb (i_resolution r) (Resolution_String Resolution_RESOLUTION_ALERTED))
            && since_and_region since north south west east r)
         (incidents s).

(** [alertingIncidentsQuery] *)
Definition alertingIncidentsStmt (since north south west east : Z) (s : Store)
    : list IncidentRow :=
  filter (fun r =>
            String.eqb (i_resolution r) (Resolution_String Resolution_RESOLUTION_ALERTED)
            && since_and_region since north south west east r)
         (incidents s).

(** [saveSessionQuery]; [id] is the primary key. *)
Definition saveSessionStmt (id : string) (expiry : Z) (s : Store) : error + Store :=
  if has_key s_id id (sessions s)
  then inl (driver_ErrConstraint "sessions")
  else inr (mkStore (incidents s) (comments s) (sessions s ++ [mkSessionRow id expiry])).

(** [isValidSessionQuery] *)
Definition isValidSessionStmt (id : string) (s : Store) : list Z :=
  map s_expiry (filter (fun r => String.eqb (s_id r) id) (sessions s)).

(** [QueryRow(...).Scan]: the first row, or [sql.ErrNoRows]. *)
Definition Row_Scan {A : Type} (rows : list A) : error + A :=
  match rows with
  | [] => inl sql_ErrNoRows
  | r :: _ => inr r
  end.

(** ** [sort.Sort] on [ByTimestamp] *)

(** [ByTimestamp.Less] *)
Definition ByTimestamp_Less (a b : Comment) : bool :=
  Comment_Timestamp a <? Comment_Timestamp b.

(** No element is [Less] than the one before it. *)
Definition ascending (l : list Comment) : Prop :=
  Sorted (fun a b => ByTimestamp_Less b a = false) l.

(** [sort.Sort] by its documentation: it rearranges the data into ascending
    order as [Less] determines it, and "the sort is not guaranteed to be
    stable".  An implementation is a function with these two properties. *)
Class SortImpl : Type := {
  sort_Sort : list Comment -> list Comment;
  sort_Sort_perm : forall l, Permutation l (sort_Sort l);
  sort_Sort_ascending : forall l, ascending (sort_Sort l)
}.

(** ** The methods of [*Database] *)

(** What a [scanner] hands to [Scan]: the seven columns of a row, or an error. *)
Definition scanner : Type := (error + IncidentRow)%type.

Definition scanIncident (s : scanner) : error + Incident :=
  match s with
  | inl err => inl err
  | inr row =>
      inr (mkIncident (i_id row)
             (Some (mkTimestamp (i_timestamp row) 0))
             (i_description row)
             (Some (mkCoordinates (i_lat row) (i_lon row)))
             (Resolution_value_index (i_resolution row))
             (i_image row)
             [])
  end.

Definition hasIncident (id : string) : Tx bool :=
  (rows <- query (hasIncidentStmt id) ;;
   match Row_Scan rows with
   | inl err =>
       if errors_Is err sql_ErrNoRows then ret false
       else throw (fmt_Errorf "unable to check for existance of incident" err)
   | inr existingID => ret (String.eqb id existingID)
   end)%tx.

Definition SaveIncident (inc : Incident) : Store -> result unit * Store :=
  transaction
    (exists_ <- hasIncident (Id inc) ;;
     if exists_ : bool then throw database_ErrAlreadyExists
     else
       timestamp <- deref (Incident_Timestamp inc) ;;
       coordinates <- deref (Incident_Coordinates inc) ;;
       exec "unable to save incident"
         (saveIncidentStmt (Id inc) (Seconds timestamp) (Description inc)
            (Lat coordinates) (Lon coordinates)
            (Resolution_String (Incident_Resolution inc)) (ImageId inc)) ;;
       ret tt)%tx.

(** [uuid] is what [uuid.New().String()] gives in this call. *)
Definition SaveReview (uuid : string) (id : string) (res : Resolution) (comment : Comment)
    : Store -> result unit * Store :=
  transaction
    (exists_ <- hasIncident id ;;
     if negb exists_ then throw database_ErrDoesNotExist
     else
       exec "unable to update incident resolution"
         (updateResolutionStmt (Resolution_String res) id) ;;
       exec "unable to save comment"
         (saveCommentStmt uuid id (Comment_Timestamp comment) (AuthorId comment)
            (Message comment) (Resolution_String res)) ;;
       ret tt)%tx.

(** The body of the [rows.Next()] loop of [ViewIncident]: the resolution
    column is scanned into [discard]. *)
Definition scanComment (row : CommentRow) : Comment :=
  mkComment (c_timestamp row) (c_author row) (c_comment row).

Definition with_comments (inc : Incident) (cs : list Comment) : Incident :=
  mkIncident (Id inc) (Incident_Timestamp inc) (Description inc)
    (Incident_Coordinates inc) (Incident_Resolution inc) (ImageId inc) cs.

Definition append_comment (inc : Incident) (row : CommentRow) : Incident :=
  with_comments inc (ReviewerComments inc ++ [scanComment row]).

Definition ViewIncident `{SortImpl} (id : string) : Store -> result Incident * Store :=
  transaction
    (row <- query (viewIncidentStmt id) ;;
     match scanIncident (Row_Scan row) with
     | inl err =>
         if errors_Is err sql_ErrNoRows then throw database_ErrDoesNotExist
         else throw (fmt_Errorf "unable to get incident info" err)
     | inr inc =>
         rows <- query (viewCommentsStmt id) ;;
         let inc := fold_left append_comment rows inc in
         ret (with_comments inc (sort_Sort (ReviewerComments inc)))
     end)%tx.

(** The [rows.Next()] loop the four listing methods share. *)
Fixpoint scan_rows (rows : list IncidentRow) (incidents : list Incident)
    : result (list Incident) :=
  match rows with
  | [] => returned incidents
  | row :: rows' =>
      match scanIncident (inr row) with
      | inl err =>
          if errors_Is err sql_ErrNoRows then failed database_ErrDoesNotExist
          else failed (fmt_Errorf "unable to get incident info" err)
      | inr inc => scan_rows rows' (incidents ++ [inc])
      end
  end.

Definition IncidentsWithoutReview (db : Store) : result (list Incident) * Store :=
  let rows :=
    incidentsWithoutReviewStmt (Resolution_String Resolution_RESOLUTION_UNSPECIFIED) db in
  (scan_rows rows [], db).

(** [slices.DeleteFunc]: the elements [del] does not hold for, in order.
    [del] may panic ([None]). *)
Fixpoint slices_DeleteFunc {A : Type} (s : list A) (del : A -> option bool)
    : option (list A) :=
  match s with
  | [] => Some []
  | x :: s' =>
      match del x with
      | None => None
      | Some d =>
          match slices_DeleteFunc s' del with
          | None => None
          | Some kept => Some (if d then kept else x :: kept)
          end
      end
  end.

Section Radius.

(** [distance] is defined in a file of the package that is not at hand: any
    function of two coordinate pairs. *)
Variable distance : float64 -> float64 -> float64 -> float64 -> float64.

Definition outside_radius (center : Coordinates) (radius : float64) (i : Incident)
    : option bool :=
  match Incident_Coordinates i with
  | Some c => Some (float64_gt (distance (Lat center) (Lon center) (Lat c) (Lon c)) radius)
  | None => None
  end.

Definition IncidentsInRadius (center : Coordinates) (radius : float64) (db : Store)
    : result (list Incident) * Store :=
  let rows := incidentsInRadiusStmt db in
  match scan_rows rows [] with
  | returned incidents =>
      match slices_DeleteFunc incidents (outside_radius center radius) with
      | Some incidents' => (returned incidents', db)
      | None => (panicked, db)
      end
  | other => (other, db)
  end.

End Radius.

Definition IncidentsInRegion (since : Time) (region : Region) (db : Store)
    : result (list Incident) * Store :=
  let rows :=
    incidentsInRegionStmt (Time_Unix since)
      (go_div (North region) 100) (go_div (South region) 100)
      (go_div (West region) 100) (go_div (East region) 100) db in
  (scan_rows rows [], db).

Definition AlertingIncidents (since : Time) (region : Region) (db : Store)
    : result (list Incident) * Store :=
  let rows :=
    alertingIncidentsStmt (Time_Unix since)
      (go_div (North region) 100) (go_div (South region) 100)
      (go_div (West region) 100) (go_div (East region) 100) db in
  (scan_rows rows [], db).

(** [now] is what [time.Now()] gives in this call. *)
Definition SaveSession (now : Time) (session : string) (db : Store)
    : result unit * Store :=
  let expiry := Time_Add now (1 * time_Hour) in
  match saveSessionStmt session (Time_Unix expiry) db with
  | inl err => (failed (fmt_Errorf "unable to save session" err), db)
  | inr db' => (returned tt, db')
  end.

Definition session_expired : error := errors_New "session expired".

(** [now] is the clock reading [time.Since] takes. *)
Definition IsValidSession (now : Time) (session : string) (db : Store)
    : result unit * Store :=
  let row := isValidSessionStmt session db in
  match Row_Scan row with
  | inl err => (failed (fmt_Errorf "unable to scan row" err), db)
  | inr expiryUnix =>
      let expiry := time_Unix expiryUnix 0 in
      if time_Since now expiry >? 0 then (failed session_expired, db)
      else (returned tt, db)
  end.

(** ** Two implementations of [sort.Sort] *)

(** A stable insertion sort.  [x] goes left past every neighbour it is [Less]
    than; [left] is the part of the slice before [x], nearest element first,
    and the result is that part with [x] in its place. *)
Fixpoint sift (x : Comment) (left : list Comment) : list Comment :=
  match left with
  | [] => [x]
  | y :: left' =>
      if ByTimestamp_Less x y then y :: sift x left' else x :: left
  end.

Definition siftSort (data : list Comment) : list Comment :=
  rev (fold_left (fun left x => sift x left) data []).

(** The rest of this section follows [sort.Sort] of the Go release the
    module asks for ([go 1.20]; the pattern-defeating quicksort, in the
    standard library since Go 1.19), on a slice as a list with [Swap] and
    [Less] by index.  It covers slices of fewer than 50 elements and the runs
    in which no partition is so unbalanced that [breakPatterns] is called;
    outside of that the functions give [None]. *)

Fixpoint set_nth {A : Type} (l : list A) (i : nat) (x : A) : list A :=
  match l, i with
  | [], _ => []
  | _ :: t, O => x :: t
  | h :: t, S i' => h :: set_nth t i' x
  end.

(** [data.Swap(i, j)]; the sort keeps every index inside the slice. *)
Definition Swap (data : list Comment) (i j : nat) : list Comment :=
  match nth_error data i, nth_error data j with
  | Some x, Some y => set_nth (set_nth data i y) j x
  | _, _ => data
  end.

(** [data.Less(i, j)] *)
Definition Less (data : list Comment) (i j : nat) : bool :=
  match nth_error data i, nth_error data j with
  | Some x, Some y => ByTimestamp_Less x y
  | _, _ => false
  end.

Local Open Scope nat_scope.

(** [for j := i; j > a && data.Less(j, j-1); j-- { data.Swap(j, j-1) }] *)
Fixpoint insertionSort_shift (data : list Comment) (a j : nat) : list Comment :=
  match j with
  | O => data
  | S j' =>
      if (a <? j) && Less data j j'
      then insertionSort_shift (Swap data j j') a j'
      else data
  end.

(** [insertionSort(data, a, b)] *)
Definition insertionSort (data : list Comment) (a b : nat) : list Comment :=
  fold_left (fun data i => insertionSort_shift data a i) (seq (a + 1) (b - (a + 1))) data.

Inductive sortedHint : Type := unknownHint | increasingHint | decreasingHint.

(** [order2(data, a, b, swaps)]; the counter is returned with the pair. *)
Definition order2 (data : list Comment) (a b swaps : nat) : nat * nat * nat :=
  if Less data b a then (b, a, S swaps) else (a, b, swaps).

(** [median(data, a, b, c, swaps)] *)
Definition median (data : list Comment) (a b c swaps : nat) : nat * nat :=
  let '(a, b, swaps) := order2 data a b swaps in
  let '(b, c, swaps) := order2 data b c swaps in
  let '(a, b, swaps) := order2 data a b swaps in
  (b, swaps).

(** [choosePivot(data, a, b)] for fewer than 50 elements: the median of
    three from 8 elements on, and no Tukey ninther. *)
Definition choosePivot (data : list Comment) (a b : nat) : nat * sortedHint :=
  let l := b - a in
  let i := a + l / 4 * 1 in
  let j := a + l / 4 * 2 in
  let k := a + l / 4 * 3 in
  let '(j, swaps) := if 8 <=? l then median data i j k 0 else (j, 0) in
  match swaps with
  | 0 => (j, increasingHint)
  | 12 => (j, decreasingHint)
  | _ => (j, unknownHint)
  end.

Fixpoint reverseRange_loop (fuel : nat) (data : list Comment) (i j : nat) : list Comment :=
  match fuel with
  | O => data
  | S fuel' => if i <? j then reverseRange_loop fuel' (Swap data i j) (i + 1) (j - 1) else data
  end.

(** [reverseRange(data, a, b)] *)
Definition reverseRange (data : list Comment) (a b : nat) : list Comment :=
  reverseRange_loop (b - a) data a (b - 1).

(** [for i < b && !data.Less(i, i-1) { i++ }] *)
Fixpoint ordered_run (fuel : nat) (data : list Comment) (i b : nat) : nat :=
  match fuel with
  | O => i
  | S fuel' =>
      if (i <? b) && negb (Less data i (i - 1)) then ordered_run fuel' data (i + 1) b else i
  end.

(** [partialInsertionSort(data, a, b)] for fewer than 50 elements
    ([shortestShifting]): it shifts nothing, and says whether the slice is
    in order. *)
Definition partialInsertionSort (data : list Comment) (a b : nat) : bool :=
  let i := ordered_run (b - a) data (a + 1) b in
  i =? b.

(** [for i <= j && data.Less(i, a) { i++ }] *)
Fixpoint skip_less (fuel : nat) (data : list Comment) (a i j : nat) : nat :=
  match fuel with
  | O => i
  | S fuel' => if (i <=? j) && Less data i a then skip_less fuel' data a (i + 1) j else i
  end.

(** [for i <= j && !data.Less(j, a) { j-- }] *)
Fixpoint skip_not_less (fuel : nat) (data : list Comment) (a i j : nat) : nat :=
  match fuel with
  | O => j
  | S fuel' =>
      if (i <=? j) && negb (Less data j a) then skip_not_less fuel' data a i (j - 1) else j
  end.

(** The [for] loop of [partition]. *)
Fixpoint partition_loop (fuel : nat) (data : list Comment) (a i j : nat)
    : list Comment * nat :=
  match fuel with
  | O => (data, j)
  | S fuel' =>
      let i := skip_less (S j - i) data a i j in
      let j := skip_not_less (S j - i) data a i j in
      if j <? i then (data, j)
      else partition_loop fuel' (Swap data i j) a (i + 1) (j - 1)
  end.

(** [partition(data, a, b, pivot)]: the slice, [newpivot], [alreadyPartitioned]. *)
Definition partition (data : list Comment) (a b pivot : nat) : list Comment * nat * bool :=
  let data := Swap data a pivot in
  let i := a + 1 in
  let j := b - 1 in
  let i := skip_less (S j - i) data a i j in
  let j := skip_not_less (S j - i) data a i j in
  if j <? i then (Swap data j a, j, true)
  else
    let data := Swap data i j in
    let '(data, j) := partition_loop (b - a) data a (i + 1) (j - 1) in
    (Swap data j a, j, false).

(** [for i <= j && !data.Less(a, i) { i++ }] *)
Fixpoint skip_not_greater (fuel : nat) (data : list Comment) (a i j : nat) : nat :=
  match fuel with
  | O => i
  | S fuel' =>
      if (i <=? j) && negb (Less data a i) then skip_not_greater fuel' data a (i + 1) j else i
  end.

(** [for i <= j && data.Less(a, j) { j-- }] *)
Fixpoint skip_greater (fuel : nat) (data : list Comment) (a i j : nat) : nat :=
  match fuel with
  | O => j
  | S fuel' => if (i <=? j) && Less data a j then skip_greater fuel' data a i (j - 1) else j
  end.

(** The [for] loop of [partitionEqual]. *)
Fixpoint partitionEqual_loop (fuel : nat) (data : list Comment) (a i j : nat)
    : list Comment * nat :=
  match fuel with
  | O => (data, i)
  | S fuel' =>
      let i := skip_not_greater (S j - i) data a i j in
      let j := skip_greater (S j - i) data a i j in
      if j <? i then (data, i)
      else partitionEqual_loop fuel' (Swap data i j) a (i + 1) (j - 1)
  end.

(** [partitionEqual(data, a, b, pivot)] *)
Definition partitionEqual (data : list Comment) (a b pivot : nat) : list Comment * nat :=
  let data := Swap data a pivot in
  partitionEqual_loop (b - a) data a (a + 1) (b - 1).

(** [pdqsort(data, a, b, limit)]; the two flags are its local variables,
    [true] at every call.  [fuel] bounds the turns of the loop and the depth
    of the calls.  [None]: out of fuel, or one of the branches left out
    ([heapSort] at [limit == 0], [breakPatterns] after an unbalanced
    partition, 50 elements or more). *)
Fixpoint pdqsort (fuel : nat) (data : list Comment) (a b limit : nat)
    (wasBalanced wasPartitioned : bool) : option (list Comment) :=
  match fuel with
  | O => None
  | S fuel' =>
      let length := b - a in
      if length <=? 12 then Some (insertionSort data a b)
      else if limit =? 0 then None
      else if negb wasBalanced then None
      else if 50 <=? length then None
      else
        let '(pivot, hint) := choosePivot data a b in
        let '(data, pivot, hint) :=
          match hint with
          | decreasingHint => (reverseRange data a b, (b - 1) - (pivot - a), increasingHint)
          | _ => (data, pivot, hint)
          end in
        if wasBalanced && wasPartitioned
           && match hint with increasingHint => true | _ => false end
           && partialInsertionSort data a b
        then Some data
        else if (0 <? a) && negb (Less data (a - 1) pivot)
        then
          let '(data, mid) := partitionEqual data a b pivot in
          pdqsort fuel' data mid b limit wasBalanced wasPartitioned
        else
          let '(data, mid, alreadyPartitioned) := partition data a b pivot in
          let leftLen := mid - a in
          let rightLen := b - mid in
          let balanceThreshold := length / 8 in
          if leftLen <? rightLen
          then
            match pdqsort fuel' data a mid limit true true with
            | Some data =>
                pdqsort fuel' data (mid + 1) b limit (balanceThreshold <=? leftLen)
                  alreadyPartitioned
            | None => None
            end
          else
            match pdqsort fuel' data (mid + 1) b limit true true with
            | Some data =>
                pdqsort fuel' data a mid limit (balanceThreshold <=? rightLen)
                  alreadyPartitioned
            | None => None
            end
  end.

(** [bits.Len(uint(n))] *)
Definition bits_Len (n : nat) : nat := if n =? 0 then 0 else S (Nat.log2 n).

(** [sort.Sort(data)] *)
Definition go_Sort (data : list Comment) : option (list Comment) :=
  let n := List.length data in
  if n <=? 1 then Some data
  else pdqsort n data 0 n (bits_Len n) true true.

Local Close Scope nat_scope.

(** What makes a run of [go_Sort] usable under the contract: its result is
    checked to be in ascending order and a rearrangement of the input. *)
Definition Comment_eqb (a b : Comment) : bool :=
  (Comment_Timestamp a =? Comment_Timestamp b)
  && String.eqb (AuthorId a) (AuthorId b)
  && String.eqb (Message a) (Message b).

Fixpoint remove_first (x : Comment) (l : list Comment) : option (list Comment) :=
  match l with
  | [] => None
  | y :: l' =>
      if Comment_eqb x y then Some l'
      else match remove_first x l' with
           | Some r => Some (y :: r)
           | None => None
           end
  end.

Fixpoint is_rearrangement (l l' : list Comment) : bool :=
  match l with
  | [] => match l' with [] => true | _ :: _ => false end
  | x :: t =>
      match remove_first x l' with
      | Some r => is_rearrangement t r
      | None => false
      end
  end.

Fixpoint is_ascending (l : list Comment) : bool :=
  match l with
  | [] => true
  | a :: t =>
      match t with
      | [] => true
      | b :: _ => negb (ByTimestamp_Less b a) && is_ascending t
      end
  end.

(** [go_Sort] where it runs to the end and meets the contract, [siftSort]
    elsewhere. *)
Definition go_Sort_checked (data : list Comment) : list Comment :=
  match go_Sort data with
  | Some sorted =>
      if is_rearrangement data sorted && is_ascending sorted then sorted
      else siftSort data
  | None => siftSort data
  end.

(** ** Notions the statements use *)

(** No row of the relation has the key twice: what [PRIMARY KEY] maintains. *)
Definition unique_keys (s : Store) : Prop :=
  NoDup (map i_id (incidents s))
  /\ NoDup (map c_id (comments s))
  /\ NoDup (map s_id (sessions s)).

(** The store after a review: the resolution of the incident replaced, one
    comment row added. *)
Definition reviewed (uuid id : string) (res : Resolution) (comment : Comment) (db : Store)
    : Store :=
  mkStore
    (map (set_resolution (Resolution_String res) id) (incidents db))
    (comments db
     ++ [mkCommentRow uuid id (Comment_Timestamp comment) (AuthorId comment)
           (Message comment) (Resolution_String res)])
    (sessions db).

(** The row [SaveIncident] writes for an incident. *)
Definition incident_row (inc : Incident) (timestamp : Timestamp) (coordinates : Coordinates)
    : IncidentRow :=
  mkIncidentRow (Id inc) (Seconds timestamp) (Description inc)
    (Lat coordinates) (Lon coordinates)
    (Resolution_String (Incident_Resolution inc)) (ImageId inc).

(** The incident [scanIncident] builds from a row. *)
Definition incident_of_row (row : IncidentRow) : Incident :=
  mkIncident (i_id row) (Some (mkTimestamp (i_timestamp row) 0)) (i_description row)
    (Some (mkCoordinates (i_lat row) (i_lon row)))
    (Resolution_value_index (i_resolution row)) (i_image row) [].

(** The row is kept by the closure of [IncidentsInRadius]: its distance is
    not greater than the radius. *)
Definition not_outside (distance : float64 -> float64 -> float64 -> float64 -> float64)
    (center : Coordinates) (radius : float64) (row : IncidentRow) : bool :=
  negb (float64_gt (distance (Lat center) (Lon center) (i_lat row) (i_lon row)) radius).

(** The row sits on one of the five bounds the region queries are called with. *)
Definition on_a_bound (since : Time) (region : Region) (row : IncidentRow) : Prop :=
  i_timestamp row = Time_Unix since
  \/ PrimFloat.eqb (i_lat row) (float64_of_Z (go_div (North region) 100)) = true
  \/ PrimFloat.eqb (i_lat row) (float64_of_Z (go_div (South region) 100)) = true
  \/ PrimFloat.eqb (i_lon row) (float64_of_Z (go_div (West region) 100)) = true
  \/ PrimFloat.eqb (i_lon row) (float64_of_Z (go_div (East region) 100)) = true.

(** Timestamps do not decrease from [a] to [b]. *)
Definition le_timestamp (a b : Comment) : Prop := Comment_Timestamp a <= Comment_Timestamp b.

(** The listing call returned, left the store as it was, and every incident
    it returned under the id of [row] has the resolution [res]. *)
Definition lists_row_as (row : IncidentRow) (res : Resolution) (db : Store)
    (call : result (list Incident) * Store) : Prop :=
  exists incs,
    call = (returned incs, db)
    /\ forall inc, In inc incs -> Id inc = i_id row -> Incident_Resolution inc = res.

(** ** Sequences of calls *)

(** A call that may write.  The other methods hand the store back as they
    found it. *)
Inductive call : Type :=
| call_SaveIncident (inc : Incident)
| call_SaveReview (uuid id : string) (res : Resolution) (comment : Comment)
| call_SaveSession (now : Time) (session : string).

Definition after_call (db : Store) (c : call) : Store :=
  match c with
  | call_SaveIncident inc => snd (SaveIncident inc db)
  | call_SaveReview uuid id res comment => snd (SaveReview uuid id res comment db)
  | call_SaveSession now session => snd (SaveSession now session db)
  end.

Definition after_calls (calls : list call) (db : Store) : Store :=
  fold_left after_call calls db.

(** The comment row written last for an incident. *)
Definition latest_comment (id : string) (db : Store) : option CommentRow :=
  hd_error (rev (viewCommentsStmt id db)).

Definition Resolution_eqb (a b : Resolution) : bool :=
  match a, b with
  | Resolution_RESOLUTION_UNSPECIFIED, Resolution_RESOLUTION_UNSPECIFIED => true
  | Resolution_RESOLUTION_ACCEPTED, Resolution_RESOLUTION_ACCEPTED => true
  | Resolution_RESOLUTION_ALERTED, Resolution_RESOLUTION_ALERTED => true
  | Resolution_RESOLUTION_REJECTED, Resolution_RESOLUTION_REJECTED => true
  | _, _ => false
  end.

(** The call returned a list that has an incident of this id. *)
Definition lists_id (id : string) (call : result (list Incident) * Store) : Prop :=
  exists incs, fst call = returned incs /\ In id (map Id incs).

(** The two rows differ in the resolution at most. *)
Definition same_but_resolution (r r' : IncidentRow) : Prop :=
  i_id r = i_id r'
  /\ i_timestamp r = i_timestamp r'
  /\ i_description r = i_description r'
  /\ i_lat r = i_lat r'
  /\ i_lon r = i_lon r'
  /\ i_image r = i_image r'.

(** From [db] to [db'] no row went away, no comment and no session changed,
    and no incident changed in a column other than the resolution. *)
Definition only_grows (db db' : Store) : Prop :=
  (exists kept added,
     incidents db' = kept ++ added
     /\ Forall2 same_but_resolution (incidents db) kept)
  /\ (exists added, comments db' = comments db ++ added)
  /\ (exists added, sessions db' = sessions db ++ added).

(** Every comment refers to a stored incident. *)
Definition comments_have_incidents (db : Store) : Prop :=
  forall c, In c (comments db) -> In (c_incident_id c) (map i_id (incidents db)).

(** Every stored label is one of the enumeration, and an incident that has
    comments carries the label of the comment written last for it. *)
Definition labels_agree (db : Store) : Prop :=
  (forall r, In r (incidents db) -> canonical_label (i_resolution r) = true)
  /\ (forall c, In c (comments db) -> canonical_label (c_resolution c) = true)
  /\ (forall r c, In r (incidents db) -> latest_comment (i_id r) db = Some c ->
      c_resolution c = i_resolution r).

(** The three properties together, which is what one call keeps. *)
Definition consistent (db : Store) : Prop :=
  unique_keys db /\ comments_have_incidents db /\ labels_agree db.

(** The call returned a list that has this incident. *)
Definition lists_incident (inc : Incident) (call : result (list Incident) * Store) : Prop :=
  exists incs, fst call = returned incs /\ In inc incs.

(** ** Authentication (internal/auth) *)

Definition ErrBadFormat : error :=
  errors_New "authorization not in correct Bearer: $token format".

(** [strings.Split(s, sep)] for a separator of one byte: one part more than
    there are separators. *)
Fixpoint strings_Split (s : string) (sep : ascii) : list string :=
  match s with
  | EmptyString => [EmptyString]
  | String c s' =>
      if Ascii.eqb c sep then EmptyString :: strings_Split s' sep
      else match strings_Split s' sep with
           | part :: parts => String c part :: parts
           | [] => [String c EmptyString]
           end
  end.

(** The byte occurs in the string. *)
Fixpoint contains_byte (c : ascii) (s : string) : bool :=
  match s with
  | EmptyString => false
  | String c' s' => Ascii.eqb c' c || contains_byte c s'
  end.

(** The parts with the separator between them: [strings.Join]. *)
Fixpoint strings_Join (parts : list string) (sep : ascii) : string :=
  match parts with
  | [] => EmptyString
  | part :: rest =>
      match rest with
      | [] => part
      | _ :: _ => (part ++ String sep (strings_Join rest sep))%string
      end
  end.

(** The cookie value is "Bearer", one space and a token without a space. *)
Definition bearer_of (value token : string) : Prop :=
  value = ("Bearer " ++ token)%string /\ contains_byte " " token = false.

(** [authenticated]; [cookie] is the value of the request's "Authorization"
    cookie, [None] when [r.Cookie] finds none.  The database is the SQL one,
    the only provider [registerDatabase] knows. *)
Definition authenticated (now : Time) (cookie : option string) (db : Store)
    : (bool * option error) * Store :=
  match cookie with
  | None => ((false, None), db)
  | Some value =>
      let bearerToken := strings_Split value " " in
      if negb (Nat.eqb (List.length bearerToken) 2) then ((false, Some ErrBadFormat), db)
      else if negb (String.eqb (nth 0 bearerToken "") "Bearer")
      then ((false, Some ErrBadFormat), db)
      else
        let session := nth 1 bearerToken "" in
        match IsValidSession now session db with
        | (returned _, db') => ((true, None), db')
        | (_, db') => ((false, None), db')
        end
  end.

Inductive SameSite : Type :=
| SameSiteDefaultMode
| SameSiteLaxMode
| SameSiteStrictMode
| SameSiteNoneMode.

(** [http.Cookie], the fields [callback] sets. *)
Record Cookie : Type := mkCookie {
  Cookie_Name : string;
  Cookie_Value : string;
  Cookie_MaxAge : Z;
  Cookie_HttpOnly : bool;
  Cookie_Path : string;
  Cookie_SameSite : SameSite
}.

(** The text [http.Error] writes: a constant, or a prefix and [err.Error()]. *)
Inductive error_text : Type :=
| text (s : string)
| text_of_error (before : string) (err : error).

(** What a handler answers: [http.Error], [http.Redirect] (after
    [http.SetCookie], if any), or the wrapped handler's [ServeHTTP]. *)
Inductive response : Type :=
| http_Error (body : error_text) (code : Z)
| http_Redirect (cookie : option Cookie) (url : string) (code : Z)
| handler_ServeHTTP.

Definition http_StatusBadRequest : Z := 400.
Definition http_StatusUnauthorized : Z := 401.
Definition http_StatusTemporaryRedirect : Z := 307.

Record Config : Type := mkConfig {
  Domain : string;
  ClientID : string;
  ClientSecret : string
}.

Record Auth : Type := mkAuth {
  prefix : string;
  callbackURL : string;
  cfg : Config
}.

(** [Register], as far as the [Auth] it builds. *)
Definition Register (prefix : string) (cfg : Config) : Auth :=
  mkAuth prefix
    ("https://github.com/login/oauth/authorize?client_id=" ++ ClientID cfg
     ++ "&redirect_uri=" ++ (Domain cfg ++ prefix ++ "oauth/callback"))
    cfg.

Definition index (a : Auth) (now : Time) (cookie : option string) (db : Store)
    : response * Store :=
  let '((authenticated_, err), db') := authenticated now cookie db in
  match err with
  | Some err =>
      (http_Error (text_of_error "unable to authenticate: " err) http_StatusUnauthorized, db')
  | None =>
      if authenticated_ : bool then (handler_ServeHTTP, db')
      else (http_Redirect None (callbackURL a) http_StatusTemporaryRedirect, db')
  end.

Section Callback.

(** The exchange with GitHub: what [a.client.Do] and the decoding of the
    answer give for the posted fields, an error or the [access_token]. *)
Variable github : list (string * string) -> error + string.

(** [callback]; [code] is the query's "code". *)
Definition callback (a : Auth) (now : Time) (code : string) (db : Store)
    : response * Store :=
  if String.eqb code "" then (http_Error (text "missing code") http_StatusBadRequest, db)
  else
    let requestData :=
      [ ("client_id", ClientID (cfg a));
        ("client_secret", ClientSecret (cfg a));
        ("code", code) ] in
    match github requestData with
    | inl err => (http_Error (text_of_error "" err) http_StatusUnauthorized, db)
    | inr AccessToken =>
        match SaveSession now AccessToken db with
        | (failed err, db') =>
            (http_Error (text_of_error "" err) http_StatusUnauthorized, db')
        | (_, db') =>
            (http_Redirect
               (Some (mkCookie "Authorization" ("Bearer " ++ AccessToken) 3600 true "/"
                        SameSiteLaxMode))
               (prefix a) http_StatusTemporaryRedirect, db')
        end
    end.

End Callback.

(** *** The handler [Register] returns *)

(** [strings.TrimRight(s, cutset)] for a cutset of one byte. *)
Fixpoint strings_TrimRight (s : string) (c : ascii) : string :=
  match s with
  | EmptyString => EmptyString
  | String a s' =>
      match strings_TrimRight s' c with
      | EmptyString => if Ascii.eqb a c then EmptyString else String a EmptyString
      | rest => String a rest
      end
  end.

(** [strings.TrimPrefix]: [s] without the leading [prefix], or [s] itself. *)
Fixpoint strings_CutPrefix (s prefix : string) : option string :=
  match prefix, s with
  | EmptyString, _ => Some s
  | String p prefix', String a s' =>
      if Ascii.eqb a p then strings_CutPrefix s' prefix' else None
  | String _ _, EmptyString => None
  end.

Definition strings_TrimPrefix (s prefix : string) : string :=
  match strings_CutPrefix s prefix with
  | Some rest => rest
  | None => s
  end.

(** [http.StripPrefix(prefix, h)] on a request whose [RawPath] is empty: the
    path [h] is given, or [None] where the answer is [http.NotFound]. *)
Definition http_StripPrefix (prefix path : string) : option string :=
  if String.eqb prefix "" then Some path
  else
    let p := strings_TrimPrefix path prefix in
    if (String.length p <? String.length path)%nat then Some p else None.

(** Whether the handler [Register] returns hands a request of this path to
    [a.callback]: [a.mux] has the patterns "/oauth/callback" and "/", and a
    pattern that does not end in a slash names that one path. *)
Definition served_by_callback (prefix path : string) : bool :=
  match http_StripPrefix (strings_TrimRight prefix "/") path with
  | Some p => String.eqb p "/oauth/callback"
  | None => false
  end.

(** The path of the [redirect_uri] in [callbackURL], for a domain that has
    no path of its own. *)
Definition redirect_path (prefix : string) : string := prefix ++ "oauth/callback".

(** A run of [k] slashes. *)
Fixpoint slashes (k : nat) : string :=
  match k with
  | O => EmptyString
  | S k' => String "/" (slashes k')
  end.

(** ** Wiring (internal/cmd/saferplace) *)

(** [type Dependency string] *)
Definition Dependency : Type := string.

Definition DatabaseDependency : Dependency := "database".
Definition QueueDependency : Dependency := "queue".
Definition StorageDependency : Dependency := "storage".
Definition NotifierDependency : Dependency := "notifier".

Definition dependenciesToStrings (dependencies : list Dependency) : list string :=
  fold_left (fun res dependency => res ++ [dependency]) dependencies [].

(** The loop of [StringsToDependencies]; the [default] case panics. *)
Fixpoint StringsToDependencies_from (res : list Dependency) (ss : list string)
    : result (list Dependency) :=
  match ss with
  | [] => returned res
  | s :: ss' =>
      if String.eqb s DatabaseDependency
      then StringsToDependencies_from (res ++ [DatabaseDependency]) ss'
      else if String.eqb s QueueDependency
      then StringsToDependencies_from (res ++ [QueueDependency]) ss'
      else if String.eqb s StorageDependency
      then StringsToDependencies_from (res ++ [StorageDependency]) ss'
      else if String.eqb s NotifierDependency
      then StringsToDependencies_from (res ++ [NotifierDependency]) ss'
      else panicked
  end.

Definition StringsToDependencies (ss : list string) : result (list Dependency) :=
  StringsToDependencies_from [] ss.

Definition known_dependency (s : string) : Prop :=
  s = "database" \/ s = "queue" \/ s = "storage" \/ s = "notifier".

(** An error of [errors.Join]: a plain error, or the list a join holds. *)
#[warnings="-register-all"]
Inductive joined : Type :=
| plain (err : error)
| joinError (errs : list joined).

(** [errors.Join(a, b)]: nil when both are nil, else the non-nil ones. *)
Definition errors_Join (a b : option joined) : option joined :=
  match a, b with
  | None, None => None
  | Some x, None => Some (joinError [x])
  | None, Some y => Some (joinError [y])
  | Some x, Some y => Some (joinError [x; y])
  end.

(** [errors.Is] on a join: some error of the list is the target. *)
Fixpoint joined_Is (err : joined) (target : error) : bool :=
  match err with
  | plain e => errors_Is e target
  | joinError errs => existsb (fun e => joined_Is e target) errs
  end.

(** [errors.Is] on an error that may be nil. *)
Definition option_joined_Is (err : option joined) (target : error) : bool :=
  match err with
  | Some err => joined_Is err target
  | None => false
  end.

(** [errors.Is] for a target, on an error that may be nil. *)
Definition option_error_Is (target : error) (e : option error) : bool :=
  match e with
  | Some e => errors_Is e target
  | None => false
  end.

(** The error [multiCloser.Close] has built from the errors met so far. *)
Definition joined_so_far (err : option joined) (es : list (option error)) : option joined :=
  fold_left (fun err e => errors_Join err (option_map plain e)) es err.

Section Closers.

(** What the closers act on. *)
Variable World : Type.

(** An [io.Closer]: it changes the world and returns an error or nil. *)
Definition Closer : Type := World -> option error * World.

(** [multiCloser.Close] *)
Definition multiCloser_Close (mc : list Closer) (w : World) : option joined * World :=
  fold_left
    (fun '(err, w) c =>
       let '(e, w') := c w in
       (errors_Join err (option_map plain e), w'))
    mc (None, w).

(** What each closer returns when they run one after the other, and the
    world they leave. *)
Fixpoint closed_in_turn (mc : list Closer) (w : World) : list (option error) * World :=
  match mc with
  | [] => ([], w)
  | c :: mc' =>
      let '(e, w') := c w in
      let '(es, w'') := closed_in_turn mc' w' in
      (e :: es, w'')
  end.

End Closers.

Section Middleware.

(** [http.Handler] *)
Variable Handler : Type.

(** [webserver.Service] and [middleware.Middleware] *)
Definition Service : Type := unit -> string * Handler.
Definition Middleware : Type := Handler -> Handler.

Definition ServiceMiddleware (middlewares : list Middleware) (services : list Service)
    : list Service :=
  fold_left
    (fun wrapped service =>
       let '(path, handler) := service tt in
       let handler := fold_left (fun handler middleware => middleware handler)
                        middlewares handler in
       wrapped ++ [fun _ => (path, handler)])
    services [].

(** The handler inside the middlewares, the first of the slice innermost. *)
Definition wrap (middlewares : list Middleware) (handler : Handler) : Handler :=
  fold_left (fun handler middleware => middleware handler) middlewares handler.

End Middleware.

Arguments wrap {Handler} middlewares handler.

(** *** [createDependencies] *)

Definition errProviderNotFound : error := errors_New "provider not found".

(** [slices.Contains] *)
Definition slices_Contains (s : list Dependency) (v : Dependency) : bool :=
  existsb (fun e => String.eqb v e) s.

(** The interfaces the dependencies are held by, and what the constructors
    of the providers, [tracing.NewTracingProvider] and [%q] give in this
    run.  The logger and the metrics registry are taken as made. *)
Class Constructors : Type := {
  database_Database : Type;
  queue_Queue : Type;
  storage_Storage : Type;
  notifier_Notifier : Type;
  trace_TracerProvider : Type;
  io_Closer : Type;
  logger_Sync : io_Closer;
  tracing_NewTracingProvider : error + trace_TracerProvider * io_Closer;
  sqldatabase_New : error + database_Database;
  memory_New : queue_Queue;
  minio_New : trace_TracerProvider -> error + storage_Storage;
  lognotifier_New : notifier_Notifier;
  strconv_Quote : string -> string
}.

(** The provider names of [config.Config]. *)
Record config_Config : Type := mkProviders {
  Database_Provider : string;
  Queue_Provider : string;
  Storage_Provider : string;
  Notifier_Provider : string
}.

(** [dependencies], without the logger and the metrics. *)
Record dependencies `{Constructors} : Type := mkDependencies {
  tracing : option trace_TracerProvider;
  database : option database_Database;
  queue : option queue_Queue;
  storage : option storage_Storage;
  notifer : option notifier_Notifier
}.
Arguments mkDependencies {_} tracing database queue storage notifer.

(** A [registerDependencyFn]: it returns nil with the dependency set in
    [deps], or an error with [deps] as it was, or it panics. *)
Definition registerDependencyFn `{Constructors} : Type :=
  config_Config -> dependencies -> result dependencies.

Definition registerDatabase `{Constructors} : registerDependencyFn :=
  fun cfg deps =>
    let provider := Database_Provider cfg in
    match (if String.eqb provider "sql" then sqldatabase_New
           else inl errProviderNotFound) with
    | inl err =>
        failed (fmt_Errorf ("unable to open " ++ strconv_Quote provider ++ " database") err)
    | inr v =>
        returned (mkDependencies (tracing deps) (Some v) (queue deps) (storage deps)
                    (notifer deps))
    end.

Definition registerQueue `{Constructors} : registerDependencyFn :=
  fun cfg deps =>
    let provider := Queue_Provider cfg in
    match (if String.eqb provider "memory" then inr memory_New
           else inl errProviderNotFound) with
    | inl err =>
        failed (fmt_Errorf ("unable to open " ++ strconv_Quote provider ++ " queue") err)
    | inr v =>
        returned (mkDependencies (tracing deps) (database deps) (Some v) (storage deps)
                    (notifer deps))
    end.

(** [deps.tracing.Tracer] is called on the way to [minio.New]: a nil
    [tracing] panics. *)
Definition registerStorage `{Constructors} : registerDependencyFn :=
  fun cfg deps =>
    let provider := Storage_Provider cfg in
    if String.eqb provider "minio" then
      match tracing deps with
      | None => panicked
      | Some tracer =>
          match minio_New tracer with
          | inl err =>
              failed (fmt_Errorf ("unable to open " ++ strconv_Quote provider ++ " storage")
                        err)
          | inr v =>
              returned (mkDependencies (tracing deps) (database deps) (queue deps) (Some v)
                          (notifer deps))
          end
      end
    else
      failed (fmt_Errorf ("unable to open " ++ strconv_Quote provider ++ " storage")
                errProviderNotFound).

(** The text of the error says "database", as [registerDatabase]'s does. *)
Definition registerNotifier `{Constructors} : registerDependencyFn :=
  fun cfg deps =>
    let provider := Notifier_Provider cfg in
    match (if String.eqb provider "log" then inr lognotifier_New
           else inl errProviderNotFound) with
    | inl err =>
        failed (fmt_Errorf ("unable to open " ++ strconv_Quote provider ++ " database") err)
    | inr v =>
        returned (mkDependencies (tracing deps) (database deps) (queue deps) (storage deps)
                    (Some v))
    end.

(** The map literal [createDependencies] ranges over. *)
Definition registry `{Constructors} : list (Dependency * registerDependencyFn) :=
  [ (DatabaseDependency, registerDatabase);
    (QueueDependency, registerQueue);
    (StorageDependency, registerStorage);
    (NotifierDependency, registerNotifier) ].

(** The [range] loop, over the map's entries in the order Go takes them in:
    the dependencies at the end and nil, or the dependencies at the first
    error and that error. *)
Fixpoint register_each `{Constructors} (entries : list (Dependency * registerDependencyFn))
    (wantedDependencies : list Dependency) (cfg : config_Config) (deps : dependencies)
    : result (dependencies * option error) :=
  match entries with
  | [] => returned (deps, None)
  | (dep, fn) :: entries' =>
      if slices_Contains wantedDependencies dep then
        match fn cfg deps with
        | returned deps' => register_each entries' wantedDependencies cfg deps'
        | failed err => returned (deps, Some err)
        | panicked => panicked
        end
      else register_each entries' wantedDependencies cfg deps
  end.

(** [createDependencies]; [wantedDependencies] is what [neededDependencies]
    gives for the components, [entries] the map's entries in the order of
    this run's [range].  The results are [deps], [mc] and [err]. *)
Definition createDependencies `{Constructors}
    (entries : list (Dependency * registerDependencyFn))
    (cfg : config_Config) (wantedDependencies : list Dependency)
    : result (option dependencies * list io_Closer * option error) :=
  let deps := mkDependencies None None None None None in
  let mc := [logger_Sync] in
  match tracing_NewTracingProvider with
  | inl err => returned (None, mc, Some (fmt_Errorf "unable to create tracing provider" err))
  | inr (tracing, tracingCloser) =>
      let mc := mc ++ [tracingCloser] in
      let deps := mkDependencies (Some tracing) (database deps) (queue deps) (storage deps)
                    (notifer deps) in
      match register_each entries wantedDependencies cfg deps with
      | returned (deps, err) => returned (Some deps, mc, err)
      | failed err => failed err
      | panicked => panicked
      end
  end.

(** The error the registration of a dependency ends in, with [tracing] set. *)
Definition register_error `{Constructors} (tracer : trace_TracerProvider)
    (cfg : config_Config) (entry : Dependency * registerDependencyFn) : option error :=
  match snd entry cfg (mkDependencies (Some tracer) None None None None) with
  | failed err => Some err
  | _ => None
  end.

(** ** Sample data *)

Definition centre : Coordinates := mkCoordinates 5%float 5%float.

Definition report : Incident :=
  mkIncident "inc-1" (Some (mkTimestamp 100 7)) "broken light" (Some centre)
    Resolution_RESOLUTION_UNSPECIFIED "img-1" [].

Definition report_row (resolution : string) : IncidentRow :=
  mkIncidentRow "inc-1" 100 "broken light" 5%float 5%float resolution "img-1".

Definition one_report : Store :=
  mkStore [report_row "RESOLUTION_UNSPECIFIED"] [] [].

Definition note : Comment := mkComment 300 "rev-1" "confirmed on site".

Definition tie (author : string) : CommentRow :=
  mkCommentRow author "inc-1" 2 author "same second" "RESOLUTION_ACCEPTED".

(** Thirteen comments on one incident: twelve in the same second, then an
    older one. *)
Definition thirteen_comments : Store :=
  mkStore [report_row "RESOLUTION_ACCEPTED"]
    [ tie "a"; tie "b"; tie "c"; tie "d"; tie "e"; tie "f";
      tie "g"; tie "h"; tie "i"; tie "j"; tie "k"; tie "l";
      mkCommentRow "m" "inc-1" 1 "m" "earlier" "RESOLUTION_ACCEPTED" ]
    [].

(** A second accepted incident, at latitude 0: on the southern edge of [box]. *)
Definition edge_row : IncidentRow :=
  mkIncidentRow "inc-2" 100 "on the southern edge" 0%float 5%float
    "RESOLUTION_ACCEPTED" "img-2".

Definition two_accepted : Store :=
  mkStore [report_row "RESOLUTION_ACCEPTED"; edge_row] [] [].

(** Latitude 0 to 10 and longitude 0 to 10, the bounds scaled by 100. *)
Definition box : Region := mkRegion 1000 0 0 1000.

(** The same bounds in plain degrees. *)
Definition box_in_degrees : Region := mkRegion 10 0 0 10.

(** Three comments on one incident, stored newest first, then oldest. *)
Definition three_comments : Store :=
  mkStore [report_row "RESOLUTION_ACCEPTED"]
    [ mkCommentRow "c-1" "inc-1" 300 "rev-1" "third" "RESOLUTION_ACCEPTED";
      mkCommentRow "c-2" "inc-1" 100 "rev-2" "first" "RESOLUTION_UNSPECIFIED";
      mkCommentRow "c-3" "inc-1" 200 "rev-1" "second" "RESOLUTION_REJECTED" ]
    [].

(** Providers that all open, closers known by a name, and [%q] on a name
    that needs no escape. *)
#[local] Instance every_provider_opens : Constructors := {|
  database_Database := unit;
  queue_Queue := unit;
  storage_Storage := unit;
  notifier_Notifier := unit;
  trace_TracerProvider := unit;
  io_Closer := string;
  logger_Sync := "logger.Sync";
  tracing_NewTracingProvider := inr (tt, "tracingCloser");
  sqldatabase_New := inr tt;
  memory_New := tt;
  minio_New := fun _ => inr tt;
  lognotifier_New := tt;
  strconv_Quote := fun s => String "034"%char (s ++ String "034"%char "")
|}.

Definition known_providers : config_Config := mkProviders "sql" "memory" "minio" "log".

(** Neither the database's nor the queue's provider is one the code knows. *)
Definition two_unknown_providers : config_Config :=
  mkProviders "postgres" "kafka" "minio" "log".

(** * Properties *)

(** ** Facts about the Go values *)

Lemma SFcompare_antisym (x y : spec_float) :
  SFcompare y x = option_map CompOpp (SFcompare x y).
Proof.
  destruct x as [sx|sx| |sx mx ex], y as [sy|sy| |sy my ey]; simpl;
    try destruct sx; try destruct sy; try reflexivity.
  all: rewrite (Z.compare_antisym ex ey);
    change (PosDef.Pos.compare_cont Eq my mx) with (Pos.compare my mx);
    change (PosDef.Pos.compare_cont Eq mx my) with (Pos.compare mx my);
    rewrite (Pos.compare_antisym mx my);
    destruct (ex ?= ey); simpl; try reflexivity;
    now destruct (Pos.compare mx my).
Qed.

(** [a == b] on [float64] rules out [a < b] and [b < a]. *)
Lemma float64_eq_not_lt (x y : float64) :
  PrimFloat.eqb x y = true -> float64_lt x y = false /\ float64_lt y x = false.
Proof.
  unfold float64_lt. rewrite eqb_spec, !ltb_spec. unfold SFeqb, SFltb.
  rewrite (SFcompare_antisym (Prim2SF x) (Prim2SF y)).
  destruct (SFcompare (Prim2SF x) (Prim2SF y)) as [[ | | ]|]; simpl; auto; discriminate.
Qed.

(** Away from NaN, "not greater" is "at most". *)
Lemma float64_not_gt_le (d r : float64) :
  PrimFloat.is_nan d = false -> PrimFloat.is_nan r = false ->
  negb (float64_gt d r) = float64_le d r.
Proof.
  unfold float64_gt, float64_le, PrimFloat.is_nan.
  rewrite !eqb_spec, ltb_spec, leb_spec.
  unfold SFeqb, SFltb, SFleb.
  rewrite (SFcompare_antisym (Prim2SF d) (Prim2SF r)).
  destruct (Prim2SF d) as [s|s| |s m e], (Prim2SF r) as [s'|s'| |s' m' e'];
    simpl; try discriminate; intros _ _;
    repeat match goal with |- context [if ?b then _ else _] => destruct b end;
    try reflexivity.
  all: destruct (e ?= e'); simpl; try reflexivity;
    destruct (Pos.compare_cont Eq m m'); reflexivity.
Qed.

(** [time.Since(t) > 0] exactly when the clock is past [t]: saturation keeps
    the sign. *)
Lemma time_Since_pos (now t : Time) : (time_Since now t >? 0) = (now >? t).
Proof.
  unfold time_Since, Time_Sub, maxDuration, minDuration.
  destruct (Z.gtb_spec now t) as [H | H].
  - apply Z.gtb_lt. lia.
  - destruct (Z.gtb_spec (Z.max (- 2 ^ 63) (Z.min (2 ^ 63 - 1) (now - t))) 0); [lia | reflexivity].
Qed.

(** One hour on the clock is 3600 on [Unix()]. *)
Lemma Time_Unix_Add_Hour (now : Time) :
  Time_Unix (Time_Add now (1 * time_Hour)) = Time_Unix now + 3600.
Proof.
  unfold Time_Unix, Time_Add, time_Hour, time_Second.
  replace (now + 1 * (3600 * 1000000000)) with (now + 3600 * 1000000000) by lia.
  apply Z.div_add. lia.
Qed.

(** ** Facts about the statements *)

Lemma has_key_spec {R : Type} (key : R -> string) (k : string) (rows : list R) :
  has_key key k rows = true <-> exists r, In r rows /\ key r = k.
Proof.
  unfold has_key. rewrite existsb_exists.
  split; intros [r [Hin Hk]]; exists r; split; auto; now apply String.eqb_eq.
Qed.

Lemma has_key_false {R : Type} (key : R -> string) (k : string) (rows : list R) :
  has_key key k rows = false <-> ~ exists r, In r rows /\ key r = k.
Proof.
  rewrite <- has_key_spec. destruct (has_key key k rows); split; intros; congruence.
Qed.

Lemma has_key_map {R : Type} (key : R -> string) (k : string) (rows : list R) :
  has_key key k rows = true <-> In k (map key rows).
Proof.
  rewrite has_key_spec, in_map_iff.
  split; intros [r [H1 H2]]; exists r; auto.
Qed.

Lemma has_key_app {R : Type} (key : R -> string) (k : string) (l l' : list R) :
  has_key key k (l ++ l') = has_key key k l || has_key key k l'.
Proof. apply existsb_app. Qed.

Lemma filter_head {A : Type} (p : A -> bool) (l : list A) :
  match filter p l with
  | [] => existsb p l = false
  | x :: _ => p x = true /\ existsb p l = true
  end.
Proof.
  induction l as [| a l IH]; simpl; [reflexivity |].
  destruct (p a) eqn:E; simpl; [auto |].
  destruct (filter p l); intuition.
Qed.

(** [hasIncident] answers whether a row has the id, and writes nothing. *)
Lemma hasIncident_run (id : string) (s : Store) :
  hasIncident id s = Continue (has_key i_id id (incidents s)) s.
Proof.
  unfold hasIncident, bind, query, hasIncidentStmt, has_key.
  pose proof (filter_head (fun r => String.eqb (i_id r) id) (incidents s)) as H.
  destruct (filter _ (incidents s)) as [| r rows]; simpl.
  - now rewrite H.
  - destruct H as [Hr ->]. apply String.eqb_eq in Hr. rewrite Hr, String.eqb_refl.
    reflexivity.
Qed.

Lemma NoDup_snoc (l : list string) (k : string) :
  NoDup l -> ~ In k l -> NoDup (l ++ [k]).
Proof.
  intros Hl Hk. apply NoDup_app; auto.
  - repeat constructor. simpl. tauto.
  - intros x Hx [<- | []]. contradiction.
Qed.

Lemma map_set_resolution_ids (resolution id : string) (rows : list IncidentRow) :
  map i_id (map (set_resolution resolution id) rows) = map i_id rows.
Proof.
  rewrite map_map. apply map_ext. intros r. unfold set_resolution.
  now destruct (String.eqb (i_id r) id).
Qed.

(** ** Review *)

(** Every way out of [SaveReview]: the review as a whole, or nothing. *)
Lemma SaveReview_cases (uuid id : string) (res : Resolution) (comment : Comment) (db : Store) :
  SaveReview uuid id res comment db =
    if has_key i_id id (incidents db)
    then if has_key c_id uuid (comments db)
         then (failed (fmt_Errorf "unable to save comment" (driver_ErrConstraint "comments")), db)
         else (returned tt, reviewed uuid id res comment db)
    else (failed database_ErrDoesNotExist, db).
Proof.
  unfold SaveReview, transaction, bind. rewrite hasIncident_run.
  destruct (has_key i_id id (incidents db)); simpl; [| reflexivity].
  unfold exec, updateResolutionStmt, saveCommentStmt; simpl.
  destruct (has_key c_id uuid (comments db)); reflexivity.
Qed.

(** C1. For an id that references an existing incident and a comment
    identifier that no comment has yet, [SaveReview] returns nil and the store
    differs in exactly this: every row of that id carries the label of [res],
    and one comment row is added, with the generated identifier, the incident's
    id, the comment's timestamp, author and message and the label of [res].
    For an id that no incident has, it returns [ErrDoesNotExist] and the store
    is as before.  There is no third outcome that writes: whenever the call
    does not return nil, the store is as before. *)
Theorem SaveReview_atomic (uuid id : string) (res : Resolution) (comment : Comment)
    (db : Store) :
  ((exists row, In row (incidents db) /\ i_id row = id) ->
   ~ In uuid (map c_id (comments db)) ->
   SaveReview uuid id res comment db = (returned tt, reviewed uuid id res comment db)
   /\ (forall row, In row (incidents (reviewed uuid id res comment db)) ->
       i_id row = id -> i_resolution row = Resolution_String res)
   /\ comments (reviewed uuid id res comment db) =
        comments db
        ++ [mkCommentRow uuid id (Comment_Timestamp comment) (AuthorId comment)
              (Message comment) (Resolution_String res)])
  /\ ((~ exists row, In row (incidents db) /\ i_id row = id) ->
      SaveReview uuid id res comment db = (failed database_ErrDoesNotExist, db))
  /\ (fst (SaveReview uuid id res comment db) <> returned tt ->
      snd (SaveReview uuid id res comment db) = db).
Proof.
  rewrite SaveReview_cases. split; [| split].
  - intros Hexists Hfresh. apply has_key_spec in Hexists. rewrite Hexists.
    split; [| split; [| reflexivity]].
    + destruct (has_key c_id uuid (comments db)) eqn:E; [| reflexivity].
      apply has_key_map in E. contradiction.
    + intros row Hin Hid. cbn [reviewed incidents] in Hin. apply in_map_iff in Hin.
      destruct Hin as [r [<- _]]. unfold set_resolution in *.
      destruct (String.eqb (i_id r) id) eqn:E; [reflexivity |].
      apply String.eqb_neq in E. contradiction.
  - intros Habsent. apply has_key_false in Habsent. now rewrite Habsent.
  - destruct (has_key i_id id (incidents db)); [| reflexivity].
    destruct (has_key c_id uuid (comments db)); [reflexivity |].
    cbn [fst snd]. intros Hnot. now contradiction Hnot.
Qed.

(** C1 on the sample store: a review of "inc-1" and a review of an id that is
    not there. *)
Lemma SaveReview_atomic_witness :
  SaveReview "c-1" "inc-1" Resolution_RESOLUTION_ACCEPTED note one_report =
    (returned tt,
     mkStore [report_row "RESOLUTION_ACCEPTED"]
       [mkCommentRow "c-1" "inc-1" 300 "rev-1" "confirmed on site" "RESOLUTION_ACCEPTED"]
       [])
  /\ SaveReview "c-1" "inc-2" Resolution_RESOLUTION_ACCEPTED note one_report =
       (failed database_ErrDoesNotExist, one_report).
Proof.
  split.
  - apply (SaveReview_atomic "c-1" "inc-1" Resolution_RESOLUTION_ACCEPTED note one_report).
    + exists (report_row "RESOLUTION_UNSPECIFIED"). simpl. auto.
    + simpl. tauto.
  - apply (SaveReview_atomic "c-1" "inc-2" Resolution_RESOLUTION_ACCEPTED note one_report).
    intros [row [[<- | []] H]]. discriminate H.
Defined.

(** ** Create *)

Lemma SaveIncident_cases (inc : Incident) (db : Store) :
  SaveIncident inc db =
    if has_key i_id (Id inc) (incidents db)
    then (failed database_ErrAlreadyExists, db)
    else match Incident_Timestamp inc, Incident_Coordinates inc with
         | Some timestamp, Some coordinates =>
             (returned tt,
              mkStore (incidents db ++ [incident_row inc timestamp coordinates])
                (comments db) (sessions db))
         | _, _ => (panicked, db)
         end.
Proof.
  unfold SaveIncident, transaction, bind. rewrite hasIncident_run.
  destruct (has_key i_id (Id inc) (incidents db)) eqn:E; simpl; [reflexivity |].
  destruct (Incident_Timestamp inc) as [timestamp |]; simpl; [| reflexivity].
  destruct (Incident_Coordinates inc) as [coordinates |]; simpl; [| reflexivity].
  unfold exec, saveIncidentStmt. now rewrite E.
Qed.

Lemma filter_none {A : Type} (p : A -> bool) (l : list A) :
  existsb p l = false -> filter p l = [].
Proof.
  induction l as [| a l IH]; simpl; [reflexivity |].
  destruct (p a); simpl; [discriminate | exact IH].
Qed.

(** C2. [SaveIncident] of an incident whose id a stored row already has
    returns [ErrAlreadyExists] and leaves the store as it was, whatever the
    other fields of the incident are (an empty id and nil fields included).
    In particular, after a [SaveIncident] that returned nil, the same call
    again returns [ErrAlreadyExists], the store is as the first call left it,
    and exactly one row has the id: the row the first call wrote. *)
Theorem SaveIncident_twice (inc : Incident) (db : Store) :
  ((exists row, In row (incidents db) /\ i_id row = Id inc) ->
   SaveIncident inc db = (failed database_ErrAlreadyExists, db))
  /\ (forall db1, SaveIncident inc db = (returned tt, db1) ->
      SaveIncident inc db1 = (failed database_ErrAlreadyExists, db1)
      /\ exists timestamp coordinates,
           Incident_Timestamp inc = Some timestamp
           /\ Incident_Coordinates inc = Some coordinates
           /\ filter (fun r => String.eqb (i_id r) (Id inc)) (incidents db1) =
                [incident_row inc timestamp coordinates]).
Proof.
  split.
  - intros H. apply has_key_spec in H. rewrite SaveIncident_cases. now rewrite H.
  - intros db1. rewrite !SaveIncident_cases.
    destruct (has_key i_id (Id inc) (incidents db)) eqn:E; [discriminate |].
    destruct (Incident_Timestamp inc) as [timestamp |]; [| discriminate].
    destruct (Incident_Coordinates inc) as [coordinates |]; [| discriminate].
    intros H. injection H as <-. simpl incidents.
    rewrite has_key_app, E. simpl. rewrite String.eqb_refl. split; [reflexivity |].
    exists timestamp, coordinates. repeat split.
    rewrite filter_app, (filter_none _ _ E). simpl. now rewrite String.eqb_refl.
Qed.

(** C2 on the sample data: the report saved into the empty store, then
    saved again. *)
Lemma SaveIncident_twice_witness :
  SaveIncident report empty_store = (returned tt, one_report)
  /\ SaveIncident report one_report = (failed database_ErrAlreadyExists, one_report).
Proof.
  split; [reflexivity |].
  apply (proj1 (SaveIncident_twice report one_report)).
  exists (report_row "RESOLUTION_UNSPECIFIED"). simpl. auto.
Defined.

(** ** Sessions *)

Lemma SaveSession_cases (now : Time) (session : string) (db : Store) :
  SaveSession now session db =
    if has_key s_id session (sessions db)
    then (failed (fmt_Errorf "unable to save session" (driver_ErrConstraint "sessions")), db)
    else (returned tt,
          mkStore (incidents db) (comments db)
            (sessions db ++ [mkSessionRow session (Time_Unix now + 3600)])).
Proof.
  unfold SaveSession, saveSessionStmt. rewrite Time_Unix_Add_Hour.
  now destruct (has_key s_id session (sessions db)).
Qed.

(** C9, as the code has it.  [SaveSession] makes no existence check of its
    own.  For a token that no session row has, it returns nil and adds the
    one row (token, [Unix()] of now plus 3600).  For a token that a row
    already has, the primary key of [sessions] refuses the insert: the call
    returns an error that wraps the driver's, and the store, with its single
    row for the token, is as before. *)
Theorem SaveSession_primary_key (now : Time) (session : string) (db : Store) :
  (~ In session (map s_id (sessions db)) ->
   SaveSession now session db =
     (returned tt,
      mkStore (incidents db) (comments db)
        (sessions db ++ [mkSessionRow session (Time_Unix now + 3600)])))
  /\ (In session (map s_id (sessions db)) ->
      SaveSession now session db =
        (failed (fmt_Errorf "unable to save session" (driver_ErrConstraint "sessions")), db))
  /\ (NoDup (map s_id (sessions db)) ->
      NoDup (map s_id (sessions (snd (SaveSession now session db))))).
Proof.
  rewrite SaveSession_cases.
  destruct (has_key s_id session (sessions db)) eqn:E.
  - apply has_key_map in E. split; [| split]; [contradiction | reflexivity | auto].
  - assert (Hnot : ~ In session (map s_id (sessions db))).
    { intros Hin. apply has_key_map in Hin. congruence. }
    split; [| split]; [reflexivity | contradiction |].
    simpl. intros H. rewrite map_app. now apply NoDup_snoc.
Qed.

Lemma SaveSession_primary_key_witness :
  SaveSession 1500000000 "tok" empty_store =
    (returned tt, mkStore [] [] [mkSessionRow "tok" 3601])
  /\ SaveSession 2500000000 "tok" (mkStore [] [] [mkSessionRow "tok" 3601]) =
       (failed (fmt_Errorf "unable to save session" (driver_ErrConstraint "sessions")),
        mkStore [] [] [mkSessionRow "tok" 3601]).
Proof.
  split.
  - apply (SaveSession_primary_key 1500000000 "tok" empty_store). simpl. tauto.
  - apply (SaveSession_primary_key 2500000000 "tok" (mkStore [] [] [mkSessionRow "tok" 3601])).
    simpl. auto.
Defined.

(** C9 as the claim has it fails: saving a token a second time does not
    return nil, and the relation still has one row for it, not two. *)
Lemma SaveSession_again_refused :
  fst (SaveSession 1500000000 "tok" empty_store) = returned tt
  /\ fst (SaveSession 2500000000 "tok" (snd (SaveSession 1500000000 "tok" empty_store))) =
       failed (fmt_Errorf "unable to save session" (driver_ErrConstraint "sessions"))
  /\ sessions (snd (SaveSession 2500000000 "tok"
                      (snd (SaveSession 1500000000 "tok" empty_store)))) =
       [mkSessionRow "tok" 3601].
Proof. repeat split. Qed.

Lemma filter_unique_session (k : string) (e : Z) (l : list SessionRow) :
  NoDup (map s_id l) -> In (mkSessionRow k e) l ->
  filter (fun r => String.eqb (s_id r) k) l = [mkSessionRow k e].
Proof.
  induction l as [| r l IH]; simpl; [tauto |].
  intros Hnd Hin. inversion Hnd as [| ? ? Hnotin Hnd']; subst.
  destruct Hin as [-> | Hin].
  - simpl. rewrite String.eqb_refl. f_equal.
    apply filter_none. apply has_key_false. intros [r [Hr Hk]].
    apply Hnotin. simpl. rewrite <- Hk. now apply in_map.
  - destruct (String.eqb (s_id r) k) eqn:E; [| now apply IH].
    apply String.eqb_eq in E. exfalso. apply Hnotin. rewrite E.
    now apply (in_map s_id) in Hin.
Qed.

Lemma IsValidSession_cases (now : Time) (session : string) (db : Store) :
  IsValidSession now session db =
    (match isValidSessionStmt session db with
     | [] => failed (fmt_Errorf "unable to scan row" sql_ErrNoRows)
     | expiryUnix :: _ =>
         if now >? time_Unix expiryUnix 0 then failed session_expired else returned tt
     end, db).
Proof.
  unfold IsValidSession. destruct (isValidSessionStmt session db) as [| e rows]; simpl.
  - reflexivity.
  - rewrite time_Since_pos. now destruct (now >? time_Unix e 0).
Qed.

(** C8. [IsValidSession] leaves the store as it was.  For a token that no
    session row has, it returns an error that wraps [sql.ErrNoRows], which
    [errors.Is] tells from the "session expired" error.  For a stored token
    (one row per token, as the primary key has it) with expiry [e] seconds,
    it returns "session expired" when the clock is past [e] seconds after the
    epoch and nil when it is not; so it returns nil exactly when the token is
    stored and now is at most its expiry. *)
Theorem IsValidSession_verdict (now : Time) (session : string) (db : Store) :
  snd (IsValidSession now session db) = db
  /\ (~ In session (map s_id (sessions db)) ->
      exists err,
        fst (IsValidSession now session db) = failed err
        /\ errors_Is err sql_ErrNoRows = true
        /\ errors_Is err session_expired = false
        /\ errors_Is session_expired sql_ErrNoRows = false)
  /\ (NoDup (map s_id (sessions db)) ->
      (forall e, In (mkSessionRow session e) (sessions db) ->
         (now > time_Unix e 0 ->
          fst (IsValidSession now session db) = failed session_expired)
         /\ (now <= time_Unix e 0 ->
             fst (IsValidSession now session db) = returned tt))
      /\ (fst (IsValidSession now session db) = returned tt <->
          exists e, In (mkSessionRow session e) (sessions db) /\ now <= time_Unix e 0)).
Proof.
  rewrite IsValidSession_cases. unfold isValidSessionStmt. simpl fst. simpl snd.
  split; [reflexivity |]. split.
  - intros H. exists (fmt_Errorf "unable to scan row" sql_ErrNoRows).
    rewrite filter_none; [repeat split |].
    apply has_key_false. intros [r [Hr Hk]]. apply H. rewrite <- Hk. now apply in_map.
  - intros Hnd.
    assert (Hrow : forall e, In (mkSessionRow session e) (sessions db) ->
              map s_id (filter (fun r => String.eqb (s_id r) session) (sessions db)) = [session]
              /\ map s_expiry (filter (fun r => String.eqb (s_id r) session) (sessions db)) = [e]).
    { intros e He. now rewrite (filter_unique_session session e _ Hnd He). }
    split.
    + intros e He. destruct (Hrow e He) as [_ ->].
      destruct (Z.gtb_spec now (time_Unix e 0)); split; intros; try reflexivity; lia.
    + split.
      * pose proof (filter_head (fun r => String.eqb (s_id r) session) (sessions db)) as Hh.
        destruct (filter _ (sessions db)) as [| [k e] rows] eqn:Ef; simpl; [discriminate |].
        destruct (Z.gtb_spec now (time_Unix e 0)); [discriminate |]. intros _.
        exists e. split; [| lia].
        assert (Hin : In (mkSessionRow k e)
                        (filter (fun r => String.eqb (s_id r) session) (sessions db))).
        { rewrite Ef. now left. }
        apply filter_In in Hin. destruct Hin as [Hin Hk]. simpl in Hk.
        apply String.eqb_eq in Hk. now subst k.
      * intros [e [He Hle]]. destruct (Hrow e He) as [_ ->].
        destruct (Z.gtb_spec now (time_Unix e 0)); [lia | reflexivity].
Qed.

(** C8 on a store with one session that expires 3601 s after the epoch: the
    token is valid at 3601 s sharp, expired a nanosecond later, and another
    token is not found. *)
Lemma IsValidSession_verdict_witness :
  fst (IsValidSession 3601000000000 "tok" (mkStore [] [] [mkSessionRow "tok" 3601])) =
    returned tt
  /\ fst (IsValidSession 3601000000001 "tok" (mkStore [] [] [mkSessionRow "tok" 3601])) =
       failed session_expired
  /\ exists err,
       fst (IsValidSession 0 "other" (mkStore [] [] [mkSessionRow "tok" 3601])) = failed err
       /\ errors_Is err sql_ErrNoRows = true
       /\ errors_Is err session_expired = false
       /\ errors_Is session_expired sql_ErrNoRows = false.
Proof.
  assert (Hnd : NoDup (map s_id (sessions (mkStore [] [] [mkSessionRow "tok" 3601])))).
  { simpl. repeat constructor. simpl. tauto. }
  split; [| split].
  - apply (proj1 (proj2 (proj2
      (IsValidSession_verdict 3601000000000 "tok" (mkStore [] [] [mkSessionRow "tok" 3601])))
      Hnd) 3601).
    + simpl. auto.
    + unfold time_Unix, time_Second. lia.
  - apply (proj1 (proj2 (proj2
      (IsValidSession_verdict 3601000000001 "tok" (mkStore [] [] [mkSessionRow "tok" 3601])))
      Hnd) 3601).
    + simpl. auto.
    + unfold time_Unix, time_Second. lia.
  - apply (proj1 (proj2
      (IsValidSession_verdict 0 "other" (mkStore [] [] [mkSessionRow "tok" 3601])))).
    simpl. intros [H | []]. discriminate H.
Defined.

(** ** Listing *)

Lemma scanIncident_row (row : IncidentRow) :
  scanIncident (inr row) = inr (incident_of_row row).
Proof. reflexivity. Qed.

(** The [rows.Next()] loop never fails on rows of the relation. *)
Lemma scan_rows_map (rows : list IncidentRow) (acc : list Incident) :
  scan_rows rows acc = returned (acc ++ map incident_of_row rows).
Proof.
  revert acc. induction rows as [| row rows IH]; intros acc; simpl.
  - now rewrite app_nil_r.
  - rewrite IH, <- app_assoc. reflexivity.
Qed.

Lemma unique_key_row {R : Type} (key : R -> string) (l : list R) (a b : R) :
  NoDup (map key l) -> In a l -> In b l -> key a = key b -> a = b.
Proof.
  induction l as [| r l IH]; simpl; [tauto |].
  intros Hnd Ha Hb Hk. inversion Hnd as [| ? ? Hnotin Hnd']; subst.
  destruct Ha as [-> | Ha], Hb as [-> | Hb]; auto.
  - exfalso. apply Hnotin. rewrite Hk. now apply in_map.
  - exfalso. apply Hnotin. rewrite <- Hk. now apply in_map.
Qed.

(** With ids unique, an incident of the id of [row] is among those built from
    the selected rows exactly when [row] is selected. *)
Lemma listed_iff_selected (p : IncidentRow -> bool) (rows : list IncidentRow)
    (row : IncidentRow) :
  NoDup (map i_id rows) -> In row rows ->
  (In (i_id row) (map Id (map incident_of_row (filter p rows))) <-> p row = true).
Proof.
  intros Hnd Hin. rewrite map_map. simpl. split.
  - intros H. apply in_map_iff in H. destruct H as [r [Hk Hr]].
    apply filter_In in Hr. destruct Hr as [Hr Hp].
    now rewrite <- (unique_key_row i_id rows r row Hnd Hr Hin Hk).
  - intros Hp. apply in_map_iff. exists row. split; [reflexivity |].
    apply filter_In. auto.
Qed.

Lemma Resolution_value_index_String (r : Resolution) :
  Resolution_value_index (Resolution_String r) = r.
Proof. now destruct r. Qed.

Lemma map_lookup_absent {V : Type} (label_of : V -> string) (vs : list V) (k : string) :
  existsb (fun v => String.eqb (label_of v) k) vs = false ->
  map_lookup (map (fun v => (label_of v, v)) vs) k = None.
Proof.
  induction vs as [| v vs IH]; cbn [map map_lookup existsb]; [reflexivity |].
  destruct (String.eqb (label_of v) k); [discriminate | exact IH].
Qed.

Lemma Resolution_value_index_unknown (label : string) :
  canonical_label label = false ->
  Resolution_value_index label = Resolution_RESOLUTION_UNSPECIFIED.
Proof.
  unfold canonical_label, Resolution_value_index, Resolution_value. intros H.
  now rewrite (map_lookup_absent Resolution_String all_resolutions label H).
Qed.

Lemma canonical_label_String (r : Resolution) :
  canonical_label (Resolution_String r) = true.
Proof. now destruct r. Qed.

Lemma IncidentsWithoutReview_cases (db : Store) :
  IncidentsWithoutReview db =
    (returned (map incident_of_row (incidentsWithoutReviewStmt "RESOLUTION_UNSPECIFIED" db)),
     db).
Proof. unfold IncidentsWithoutReview. now rewrite scan_rows_map. Qed.

Lemma IncidentsInRegion_cases (since : Time) (region : Region) (db : Store) :
  IncidentsInRegion since region db =
    (returned (map incident_of_row
                 (incidentsInRegionStmt (Time_Unix since)
                    (go_div (North region) 100) (go_div (South region) 100)
                    (go_div (West region) 100) (go_div (East region) 100) db)),
     db).
Proof. unfold IncidentsInRegion. now rewrite scan_rows_map. Qed.

Lemma AlertingIncidents_cases (since : Time) (region : Region) (db : Store) :
  AlertingIncidents since region db =
    (returned (map incident_of_row
                 (alertingIncidentsStmt (Time_Unix since)
                    (go_div (North region) 100) (go_div (South region) 100)
                    (go_div (West region) 100) (go_div (East region) 100) db)),
     db).
Proof. unfold AlertingIncidents. now rewrite scan_rows_map. Qed.

Lemma DeleteFunc_outside_radius distance (center : Coordinates) (radius : float64)
    (rows : list IncidentRow) :
  slices_DeleteFunc (map incident_of_row rows) (outside_radius distance center radius) =
    Some (map incident_of_row (filter (not_outside distance center radius) rows)).
Proof.
  induction rows as [| row rows IH]; cbn [map slices_DeleteFunc filter]; [reflexivity |].
  rewrite IH. unfold outside_radius, not_outside. cbn [incident_of_row Incident_Coordinates Lat Lon].
  destruct (float64_gt _ radius); reflexivity.
Qed.

Lemma IncidentsInRadius_cases distance (center : Coordinates) (radius : float64) (db : Store) :
  IncidentsInRadius distance center radius db =
    (returned (map incident_of_row
                 (filter (not_outside distance center radius) (incidentsInRadiusStmt db))),
     db).
Proof.
  unfold IncidentsInRadius. rewrite scan_rows_map. simpl.
  now rewrite DeleteFunc_outside_radius.
Qed.

Lemma float64_lt_asym (x y : float64) : float64_lt x y = true -> float64_lt y x = false.
Proof.
  unfold float64_lt. rewrite !ltb_spec. unfold SFltb.
  rewrite (SFcompare_antisym (Prim2SF x) (Prim2SF y)).
  destruct (SFcompare (Prim2SF x) (Prim2SF y)) as [[ | | ]|]; simpl; auto; discriminate.
Qed.

(** ** Region queries *)

Lemma real_eq_int_not_lt_gt (x : float64) (n : Z) :
  PrimFloat.eqb x (float64_of_Z n) = true ->
  real_lt_int x n = false /\ real_gt_int x n = false.
Proof. intros H. exact (float64_eq_not_lt x (float64_of_Z n) H). Qed.

Lemma on_a_bound_rejected (since : Time) (region : Region) (row : IncidentRow) :
  on_a_bound since region row ->
  since_and_region (Time_Unix since)
    (go_div (North region) 100) (go_div (South region) 100)
    (go_div (West region) 100) (go_div (East region) 100) row = false.
Proof.
  unfold on_a_bound, since_and_region.
  intros [H | [H | [H | [H | H]]]];
    try (apply real_eq_int_not_lt_gt in H; destruct H as [Hlt Hgt]).
  - rewrite H, Z.gtb_ltb, Z.ltb_irrefl. reflexivity.
  - rewrite Hlt. now rewrite andb_false_r.
  - rewrite Hgt. now rewrite !andb_false_r.
  - rewrite Hgt. now rewrite !andb_false_r.
  - rewrite Hlt. now rewrite !andb_false_r.
Qed.

(** C3, as the code has it.  All five comparisons of the region queries are
    strict.  With ids unique, [IncidentsInRegion] returns an incident of a
    stored row exactly when the row's label is ACCEPTED or ALERTED and
    timestamp > since, lat < north, lat > south, lon > west and lon < east
    hold for the descaled bounds; so a row whose timestamp equals the since
    bound, or whose latitude or longitude equals one of the four descaled
    bounds (the southern one included), is not returned.  The same holds for
    [AlertingIncidents], with the label ALERTED only. *)
Theorem region_bounds_strict (since : Time) (region : Region) (db : Store)
    (row : IncidentRow) :
  NoDup (map i_id (incidents db)) ->
  In row (incidents db) ->
  (exists incs,
     fst (IncidentsInRegion since region db) = returned incs
     /\ (In (i_id row) (map Id incs) <->
         (String.eqb (i_resolution row) "RESOLUTION_ACCEPTED"
          || String.eqb (i_resolution row) "RESOLUTION_ALERTED")
         && since_and_region (Time_Unix since)
              (go_div (North region) 100) (go_div (South region) 100)
              (go_div (West region) 100) (go_div (East region) 100) row = true)
     /\ (on_a_bound since region row -> ~ In (i_id row) (map Id incs)))
  /\ (exists incs,
        fst (AlertingIncidents since region db) = returned incs
        /\ (In (i_id row) (map Id incs) <->
            String.eqb (i_resolution row) "RESOLUTION_ALERTED"
            && since_and_region (Time_Unix since)
                 (go_div (North region) 100) (go_div (South region) 100)
                 (go_div (West region) 100) (go_div (East region) 100) row = true)
        /\ (on_a_bound since region row -> ~ In (i_id row) (map Id incs))).
Proof.
  intros Hnd Hin. rewrite IncidentsInRegion_cases, AlertingIncidents_cases.
  unfold incidentsInRegionStmt, alertingIncidentsStmt. simpl fst. split.
  - eexists. split; [reflexivity |].
    pose proof (listed_iff_selected
      (fun r => (String.eqb (i_resolution r) (Resolution_String Resolution_RESOLUTION_ACCEPTED)
                 || String.eqb (i_resolution r) (Resolution_String Resolution_RESOLUTION_ALERTED))
                && since_and_region (Time_Unix since)
                     (go_div (North region) 100) (go_div (South region) 100)
                     (go_div (West region) 100) (go_div (East region) 100) r)
      (incidents db) row Hnd Hin) as Hl.
    split; [exact Hl |].
    intros Hb Hlisted. apply Hl in Hlisted.
    rewrite (on_a_bound_rejected since region row Hb), andb_false_r in Hlisted.
    discriminate.
  - eexists. split; [reflexivity |].
    pose proof (listed_iff_selected
      (fun r => String.eqb (i_resolution r) (Resolution_String Resolution_RESOLUTION_ALERTED)
                && since_and_region (Time_Unix since)
                     (go_div (North region) 100) (go_div (South region) 100)
                     (go_div (West region) 100) (go_div (East region) 100) r)
      (incidents db) row Hnd Hin) as Hl.
    split; [exact Hl |].
    intros Hb Hlisted. apply Hl in Hlisted.
    rewrite (on_a_bound_rejected since region row Hb), andb_false_r in Hlisted.
    discriminate.
Qed.

Lemma region_bounds_strict_witness :
  exists incs,
    fst (IncidentsInRegion 0 box two_accepted) = returned incs
    /\ ~ In "inc-2" (map Id incs).
Proof.
  assert (Hnd : NoDup (map i_id (incidents two_accepted))).
  { simpl. repeat constructor; simpl; intuition discriminate. }
  assert (Hin : In edge_row (incidents two_accepted)) by (simpl; auto).
  destruct (region_bounds_strict 0 box two_accepted edge_row Hnd Hin)
    as [[incs [Hret [_ Hout]]] _].
  exists incs. split; [exact Hret |].
  apply Hout. right. right. left. reflexivity.
Defined.

(** C3 as the claim has it fails: the accepted incident at latitude 0, the
    descaled southern bound of [box], is not returned, while the one at
    latitude 5 is. *)
Lemma southern_edge_excluded :
  PrimFloat.eqb (i_lat edge_row) (float64_of_Z (go_div (South box) 100)) = true
  /\ fst (IncidentsInRegion 0 box two_accepted) =
       returned [incident_of_row (report_row "RESOLUTION_ACCEPTED")].
Proof. split; reflexivity. Qed.

Lemma go_div_scaled (n : Z) : go_div (100 * n) 100 = n.
Proof. unfold go_div. rewrite Z.mul_comm. apply Z.quot_mul. discriminate. Qed.

Lemma go_div_small (n : Z) : -100 < n < 100 -> go_div n 100 = 0.
Proof.
  unfold go_div. intros H. destruct (Z.le_gt_cases 0 n).
  - apply Z.quot_small. lia.
  - rewrite <- (Z.opp_involutive n), Z.quot_opp_l by discriminate.
    rewrite Z.quot_small by lia. reflexivity.
Qed.

Lemma no_latitude_between_zero_and_zero (since west east : Z) (row : IncidentRow) :
  since_and_region since 0 0 west east row = false.
Proof.
  unfold since_and_region, real_lt_int, real_gt_int, float64_gt.
  destruct (float64_lt (i_lat row) (float64_of_Z 0)) eqn:E.
  - apply float64_lt_asym in E. unfold float64_lt in E. rewrite E.
    now rewrite !andb_false_r.
  - now rewrite andb_false_r.
Qed.

Lemma filter_all_false {A : Type} (p : A -> bool) (l : list A) :
  (forall a, p a = false) -> filter p l = [].
Proof.
  intros H. induction l as [| a l IH]; simpl; [reflexivity |]. now rewrite H.
Qed.

(** C7. [IncidentsInRegion] and [AlertingIncidents] hand each of the four
    bounds to the query divided by 100 (Go's integer division).  So bounds of
    whole degrees n, s, w, e are in force when the caller passes 100 n, 100 s,
    100 w and 100 e; and a caller who passes latitudes in plain degrees,
    North and South both inside (-100, 100), gets both descaled to 0 and no
    incident back. *)
Theorem region_bounds_descaled (since : Time) (region : Region) (db : Store) :
  (IncidentsInRegion since region db =
     (returned (map incident_of_row
                  (incidentsInRegionStmt (Time_Unix since)
                     (Z.quot (North region) 100) (Z.quot (South region) 100)
                     (Z.quot (West region) 100) (Z.quot (East region) 100) db)), db)
   /\ AlertingIncidents since region db =
        (returned (map incident_of_row
                     (alertingIncidentsStmt (Time_Unix since)
                        (Z.quot (North region) 100) (Z.quot (South region) 100)
                        (Z.quot (West region) 100) (Z.quot (East region) 100) db)), db))
  /\ (forall n s w e,
        IncidentsInRegion since (mkRegion (100 * n) (100 * s) (100 * w) (100 * e)) db =
          (returned (map incident_of_row
                       (incidentsInRegionStmt (Time_Unix since) n s w e db)), db)
        /\ AlertingIncidents since (mkRegion (100 * n) (100 * s) (100 * w) (100 * e)) db =
             (returned (map incident_of_row
                          (alertingIncidentsStmt (Time_Unix since) n s w e db)), db))
  /\ (-100 < North region < 100 -> -100 < South region < 100 ->
      IncidentsInRegion since region db = (returned [], db)
      /\ AlertingIncidents since region db = (returned [], db)).
Proof.
  split; [| split].
  - split; [apply IncidentsInRegion_cases | apply AlertingIncidents_cases].
  - intros n s w e. rewrite IncidentsInRegion_cases, AlertingIncidents_cases.
    cbn [North South West East]. now rewrite !go_div_scaled.
  - intros HN HS. rewrite IncidentsInRegion_cases, AlertingIncidents_cases.
    rewrite (go_div_small _ HN), (go_div_small _ HS).
    unfold incidentsInRegionStmt, alertingIncidentsStmt.
    rewrite !filter_all_false; [auto | |];
      intros r; rewrite no_latitude_between_zero_and_zero; apply andb_false_r.
Qed.

(** C7 on the sample store: the incident at latitude 5 and longitude 5 is
    returned for the bounds scaled by 100 and not for the bounds in degrees. *)
Lemma region_bounds_descaled_witness :
  IncidentsInRegion 0 box two_accepted =
    (returned [incident_of_row (report_row "RESOLUTION_ACCEPTED")], two_accepted)
  /\ IncidentsInRegion 0 box_in_degrees two_accepted = (returned [], two_accepted).
Proof.
  split.
  - exact (eq_trans
             (proj1 (proj1 (proj2 (region_bounds_descaled 0 box two_accepted)) 10 0 0 10))
             eq_refl).
  - apply (proj2 (proj2 (region_bounds_descaled 0 box_in_degrees two_accepted)));
      simpl; lia.
Defined.

(** ** Radius query *)

Lemma filter_filter_and {A : Type} (p q : A -> bool) (l : list A) :
  filter p (filter q l) = filter (fun a => q a && p a) l.
Proof.
  induction l as [| a l IH]; simpl; [reflexivity |].
  destruct (q a); simpl; [destruct (p a) |]; now rewrite IH.
Qed.

Lemma float64_nan_radius (d : float64) :
  float64_gt d PrimFloat.nan = false /\ float64_le d PrimFloat.nan = false.
Proof.
  unfold float64_gt, float64_le. rewrite ltb_spec, leb_spec.
  unfold SFltb, SFleb.
  change (Prim2SF PrimFloat.nan) with S754_nan.
  split; [reflexivity |]. now destruct (Prim2SF d).
Qed.

(** C6, as the code has it.  With ids unique, [IncidentsInRadius] returns an
    incident of a stored row exactly when the row's label is ACCEPTED or
    ALERTED and its distance from the center is not greater than the radius,
    as Go compares [float64].  When neither the distance nor the radius is
    NaN that is: the distance is at most the radius.  A row with any other
    label is not returned, whatever its distance. *)
Theorem IncidentsInRadius_not_greater
    (distance : float64 -> float64 -> float64 -> float64 -> float64)
    (center : Coordinates) (radius : float64) (db : Store) (row : IncidentRow) :
  NoDup (map i_id (incidents db)) ->
  In row (incidents db) ->
  exists incs,
    fst (IncidentsInRadius distance center radius db) = returned incs
    /\ (In (i_id row) (map Id incs) <->
        (String.eqb (i_resolution row) "RESOLUTION_ACCEPTED"
         || String.eqb (i_resolution row) "RESOLUTION_ALERTED") = true
        /\ float64_gt (distance (Lat center) (Lon center) (i_lat row) (i_lon row)) radius
           = false)
    /\ (PrimFloat.is_nan (distance (Lat center) (Lon center) (i_lat row) (i_lon row)) = false ->
        PrimFloat.is_nan radius = false ->
        (In (i_id row) (map Id incs) <->
         (String.eqb (i_resolution row) "RESOLUTION_ACCEPTED"
          || String.eqb (i_resolution row) "RESOLUTION_ALERTED") = true
         /\ float64_le (distance (Lat center) (Lon center) (i_lat row) (i_lon row)) radius
            = true))
    /\ (i_resolution row <> "RESOLUTION_ACCEPTED" ->
        i_resolution row <> "RESOLUTION_ALERTED" ->
        ~ In (i_id row) (map Id incs)).
Proof.
  intros Hnd Hin. rewrite IncidentsInRadius_cases. unfold incidentsInRadiusStmt.
  rewrite filter_filter_and. simpl fst. eexists. split; [reflexivity |].
  match goal with
  | |- context [filter ?p (incidents db)] =>
      pose proof (listed_iff_selected p (incidents db) row Hnd Hin) as Hl
  end.
  cbv beta in Hl. unfold not_outside in Hl.
  rewrite andb_true_iff, negb_true_iff in Hl.
  split; [exact Hl | split].
  - intros Hd Hr. rewrite Hl.
    rewrite <- (float64_not_gt_le _ _ Hd Hr), negb_true_iff. reflexivity.
  - intros Hacc Halr Hlisted. apply Hl in Hlisted. destruct Hlisted as [Hlabel _].
    apply orb_true_iff in Hlabel.
    destruct Hlabel as [H | H]; apply String.eqb_eq in H; contradiction.
Qed.

Lemma IncidentsInRadius_not_greater_witness :
  exists incs,
    fst (IncidentsInRadius (fun lat1 lon1 lat2 lon2 => PrimFloat.abs (lat1 - lat2)%float)
           centre 4%float two_accepted) = returned incs
    /\ In "inc-1" (map Id incs).
Proof.
  assert (Hnd : NoDup (map i_id (incidents two_accepted))).
  { simpl. repeat constructor; simpl; intuition discriminate. }
  assert (Hin : In (report_row "RESOLUTION_ACCEPTED") (incidents two_accepted))
    by (simpl; auto).
  destruct (IncidentsInRadius_not_greater
              (fun lat1 lon1 lat2 lon2 => PrimFloat.abs (lat1 - lat2)%float)
              centre 4%float two_accepted (report_row "RESOLUTION_ACCEPTED") Hnd Hin)
    as [incs [Hret [Hiff _]]].
  exists incs. split; [exact Hret |].
  apply Hiff. split; reflexivity.
Defined.

(** C6 as the claim has it fails: with a NaN radius no distance is at most
    the radius, and yet every accepted incident is returned, whatever
    [distance] computes. *)
Lemma nan_radius_keeps_every_candidate :
  exists radius,
    PrimFloat.is_nan radius = true
    /\ forall distance,
         fst (IncidentsInRadius distance centre radius two_accepted) =
           returned [incident_of_row (report_row "RESOLUTION_ACCEPTED");
                     incident_of_row edge_row]
         /\ float64_le (distance 5 5 5 5)%float radius = false
         /\ float64_le (distance 5 5 0 5)%float radius = false.
Proof.
  exists PrimFloat.nan. split; [reflexivity |]. intros distance.
  rewrite IncidentsInRadius_cases. unfold not_outside.
  change (incidentsInRadiusStmt two_accepted)
    with [report_row "RESOLUTION_ACCEPTED"; edge_row].
  cbn [filter].
  rewrite (proj1 (float64_nan_radius (distance (Lat centre) (Lon centre)
                    (i_lat (report_row "RESOLUTION_ACCEPTED"))
                    (i_lon (report_row "RESOLUTION_ACCEPTED"))))).
  rewrite (proj1 (float64_nan_radius (distance (Lat centre) (Lon centre)
                    (i_lat edge_row) (i_lon edge_row)))).
  repeat split; apply float64_nan_radius.
Qed.

(** ** The two sorts meet the contract of [sort.Sort] *)

Lemma not_Less_le (a b : Comment) : ByTimestamp_Less b a = false <-> le_timestamp a b.
Proof. unfold ByTimestamp_Less, le_timestamp. rewrite Z.ltb_ge. reflexivity. Qed.

Lemma ascending_le (l : list Comment) : ascending l <-> Sorted le_timestamp l.
Proof.
  unfold ascending. induction l as [| a l IH]; [split; constructor |].
  split; intros H; inversion H as [| ? ? Hs Hh]; subst; constructor;
    try (now apply IH);
    destruct Hh; constructor; now apply not_Less_le.
Qed.

Lemma sift_perm (x : Comment) (left : list Comment) : Permutation (x :: left) (sift x left).
Proof.
  induction left as [| y left IH]; simpl; [reflexivity |].
  destruct (ByTimestamp_Less x y); [| reflexivity].
  rewrite perm_swap. now apply perm_skip.
Qed.

Lemma sift_descending (x : Comment) (left : list Comment) :
  StronglySorted (fun a b => le_timestamp b a) left ->
  StronglySorted (fun a b => le_timestamp b a) (sift x left).
Proof.
  induction left as [| y left IH]; simpl; intros H.
  - repeat constructor.
  - inversion H as [| ? ? Hs Hall]; subst.
    destruct (ByTimestamp_Less x y) eqn:E.
    + constructor; [now apply IH |].
      apply (Permutation_Forall (sift_perm x left)). constructor; [| exact Hall].
      unfold ByTimestamp_Less in E. apply Z.ltb_lt in E. unfold le_timestamp. lia.
    + apply not_Less_le in E. constructor; [exact H |].
      constructor; [exact E |].
      apply (Forall_impl _ (P := fun b => le_timestamp b y)); [| exact Hall].
      unfold le_timestamp in *. intros; lia.
Qed.

Lemma fold_sift_perm (data left : list Comment) :
  Permutation (rev left ++ data) (rev (fold_left (fun left x => sift x left) data left)).
Proof.
  revert left. induction data as [| x data IH]; intros left; simpl.
  - now rewrite app_nil_r.
  - rewrite <- IH, <- (Permutation_rev (sift x left)), <- sift_perm.
    rewrite <- (Permutation_rev left). simpl.
    rewrite (Permutation_rev left) at 2. simpl.
    rewrite <- Permutation_middle. apply perm_skip.
    apply Permutation_app_tail. apply Permutation_rev.
Qed.

Lemma fold_sift_descending (data left : list Comment) :
  StronglySorted (fun a b => le_timestamp b a) left ->
  StronglySorted (fun a b => le_timestamp b a)
    (fold_left (fun left x => sift x left) data left).
Proof.
  revert left. induction data as [| x data IH]; intros left H; simpl; [exact H |].
  apply IH. now apply sift_descending.
Qed.

Lemma StronglySorted_rev (l : list Comment) :
  StronglySorted (fun a b => le_timestamp b a) l -> StronglySorted le_timestamp (rev l).
Proof.
  induction l as [| a l IH]; simpl; intros H; [constructor |].
  inversion H as [| ? ? Hs Hall]; subst. specialize (IH Hs).
  assert (Hrev : Forall (fun b => le_timestamp b a) (rev l)).
  { apply Forall_forall. intros b Hb. apply in_rev in Hb.
    revert b Hb. now apply Forall_forall. }
  clear - IH Hrev. induction (rev l) as [| b r IHr]; simpl.
  - repeat constructor.
  - inversion IH as [| ? ? Hs Hall]; inversion Hrev; subst.
    constructor; [now apply IHr |].
    apply Forall_app. split; [exact Hall | now repeat constructor].
Qed.

Lemma siftSort_perm (data : list Comment) : Permutation data (siftSort data).
Proof. exact (fold_sift_perm data []). Qed.

Lemma siftSort_ascending (data : list Comment) : ascending (siftSort data).
Proof.
  apply ascending_le, StronglySorted_Sorted, StronglySorted_rev, fold_sift_descending.
  constructor.
Qed.

(** The stable insertion sort as an implementation of [sort.Sort]. *)
#[local] Instance stable_sort : SortImpl := {|
  sort_Sort := siftSort;
  sort_Sort_perm := siftSort_perm;
  sort_Sort_ascending := siftSort_ascending
|}.

Lemma Comment_eqb_eq (a b : Comment) : Comment_eqb a b = true -> a = b.
Proof.
  unfold Comment_eqb. destruct a as [t u m], b as [t' u' m']. cbn.
  intros H. apply andb_true_iff in H. destruct H as [H Hm].
  apply andb_true_iff in H. destruct H as [Ht Hu].
  apply Z.eqb_eq in Ht. apply String.eqb_eq in Hu. apply String.eqb_eq in Hm.
  now subst.
Qed.

Lemma remove_first_perm (x : Comment) (l r : list Comment) :
  remove_first x l = Some r -> Permutation l (x :: r).
Proof.
  revert r. induction l as [| y l IH]; cbn; intros r; [discriminate |].
  destruct (Comment_eqb x y) eqn:E.
  - intros [= <-]. apply Comment_eqb_eq in E. now subst.
  - destruct (remove_first x l) as [r' |]; [| discriminate].
    intros [= <-]. rewrite (IH r' eq_refl). apply perm_swap.
Qed.

Lemma is_rearrangement_perm (l l' : list Comment) :
  is_rearrangement l l' = true -> Permutation l l'.
Proof.
  revert l'. induction l as [| x t IH]; cbn; intros l'.
  - destruct l'; [reflexivity | discriminate].
  - destruct (remove_first x l') as [r |] eqn:E; [| discriminate].
    intros H. rewrite (remove_first_perm x l' r E). apply perm_skip. now apply IH.
Qed.

Lemma is_ascending_ascending (l : list Comment) : is_ascending l = true -> ascending l.
Proof.
  unfold ascending. induction l as [| a t IH]; [constructor |].
  cbn [is_ascending]. destruct t as [| b t'].
  - repeat constructor.
  - intros H. apply andb_true_iff in H. destruct H as [Hab Ht].
    constructor; [now apply IH |]. constructor. now apply negb_true_iff.
Qed.

Lemma go_Sort_checked_perm (data : list Comment) : Permutation data (go_Sort_checked data).
Proof.
  unfold go_Sort_checked. destruct (go_Sort data) as [sorted |]; [| apply siftSort_perm].
  destruct (is_rearrangement data sorted) eqn:E; [| apply siftSort_perm].
  destruct (is_ascending sorted); [| apply siftSort_perm].
  now apply is_rearrangement_perm.
Qed.

Lemma go_Sort_checked_ascending (data : list Comment) : ascending (go_Sort_checked data).
Proof.
  unfold go_Sort_checked. destruct (go_Sort data) as [sorted |]; [| apply siftSort_ascending].
  destruct (is_rearrangement data sorted); [| apply siftSort_ascending].
  destruct (is_ascending sorted) eqn:E; [| apply siftSort_ascending].
  now apply is_ascending_ascending.
Qed.

(** Go's [sort.Sort], checked, as an implementation of [sort.Sort]. *)
#[local] Instance checked_go_sort : SortImpl := {|
  sort_Sort := go_Sort_checked;
  sort_Sort_perm := go_Sort_checked_perm;
  sort_Sort_ascending := go_Sort_checked_ascending
|}.

(** ** View *)

Lemma with_comments_twice (inc : Incident) (cs cs' : list Comment) :
  with_comments (with_comments inc cs) cs' = with_comments inc cs'.
Proof. reflexivity. Qed.

Lemma fold_append_comment (rows : list CommentRow) (inc : Incident) :
  fold_left append_comment rows inc =
    with_comments inc (ReviewerComments inc ++ map scanComment rows).
Proof.
  revert inc. induction rows as [| row rows IH]; intros inc; simpl.
  - rewrite app_nil_r. now destruct inc.
  - rewrite IH. unfold append_comment. rewrite with_comments_twice. simpl.
    now rewrite <- app_assoc.
Qed.

Lemma ViewIncident_cases `{SortImpl} (id : string) (db : Store) :
  ViewIncident id db =
    match viewIncidentStmt id db with
    | [] => (failed database_ErrDoesNotExist, db)
    | row :: _ =>
        (returned (with_comments (incident_of_row row)
                     (sort_Sort (map scanComment (viewCommentsStmt id db)))), db)
    end.
Proof.
  unfold ViewIncident, transaction, bind, query.
  destruct (viewIncidentStmt id db) as [| row rows]; simpl; [reflexivity |].
  unfold ret. rewrite fold_append_comment. reflexivity.
Qed.

Lemma viewIncidentStmt_found (id : string) (db : Store) :
  (exists row, In row (incidents db) /\ i_id row = id) ->
  exists row rows,
    viewIncidentStmt id db = row :: rows /\ In row (incidents db) /\ i_id row = id.
Proof.
  intros H. apply has_key_spec in H. unfold viewIncidentStmt, has_key in *.
  pose proof (filter_head (fun r => String.eqb (i_id r) id) (incidents db)) as Hh.
  destruct (filter _ (incidents db)) as [| row rows] eqn:E; [congruence |].
  exists row, rows. split; [reflexivity |].
  assert (Hin : In row (filter (fun r => String.eqb (i_id r) id) (incidents db))).
  { rewrite E. now left. }
  apply filter_In in Hin. destruct Hin as [Hin Hk].
  split; [exact Hin | now apply String.eqb_eq].
Qed.

(** C4, as the code has it.  For an id that an incident has, [ViewIncident]
    returns the incident with the comments fetched for it rearranged so that
    timestamps never decrease from one comment to the next.  This holds for
    every implementation of [sort.Sort]; where comments of equal timestamp
    end up is the implementation's choice. *)
Theorem ViewIncident_ascending `{SortImpl} (id : string) (db : Store) :
  (exists row, In row (incidents db) /\ i_id row = id) ->
  exists inc,
    ViewIncident id db = (returned inc, db)
    /\ Permutation (map scanComment (viewCommentsStmt id db)) (ReviewerComments inc)
    /\ Sorted le_timestamp (ReviewerComments inc).
Proof.
  intros Hex. destruct (viewIncidentStmt_found id db Hex) as [row [rows [E _]]].
  rewrite ViewIncident_cases, E. eexists. split; [reflexivity |]. simpl. split.
  - apply sort_Sort_perm.
  - apply ascending_le, sort_Sort_ascending.
Qed.

(** C4 on the sample store: comments stored with timestamps 300, 100, 200. *)
Lemma ViewIncident_ascending_witness :
  map c_timestamp (viewCommentsStmt "inc-1" three_comments) = [300; 100; 200]
  /\ exists inc,
       @ViewIncident stable_sort "inc-1" three_comments = (returned inc, three_comments)
       /\ Permutation (map scanComment (viewCommentsStmt "inc-1" three_comments))
            (ReviewerComments inc)
       /\ Sorted le_timestamp (ReviewerComments inc).
Proof.
  split; [reflexivity |].
  apply (@ViewIncident_ascending stable_sort "inc-1" three_comments).
  exists (report_row "RESOLUTION_ACCEPTED"). simpl. auto.
Defined.

(** C4 as the claim has it fails: [sort.Sort] run on the thirteen comments
    returns the comments of "a" and "b", both of timestamp 2 and fetched in
    that order, with "b" last and "a" after "g", "c", "d", "e" and "f". *)
Lemma ties_leave_fetch_order :
  map AuthorId (map scanComment (viewCommentsStmt "inc-1" thirteen_comments)) =
    ["a"; "b"; "c"; "d"; "e"; "f"; "g"; "h"; "i"; "j"; "k"; "l"; "m"]
  /\ map c_timestamp (viewCommentsStmt "inc-1" thirteen_comments) =
       [2; 2; 2; 2; 2; 2; 2; 2; 2; 2; 2; 2; 1]
  /\ option_map (map AuthorId)
       (go_Sort (map scanComment (viewCommentsStmt "inc-1" thirteen_comments))) =
       Some ["m"; "g"; "c"; "d"; "e"; "f"; "a"; "h"; "i"; "j"; "k"; "l"; "b"]
  /\ exists inc,
       fst (@ViewIncident checked_go_sort "inc-1" thirteen_comments) = returned inc
       /\ map AuthorId (ReviewerComments inc) =
            ["m"; "g"; "c"; "d"; "e"; "f"; "a"; "h"; "i"; "j"; "k"; "l"; "b"].
Proof.
  split; [reflexivity | split; [reflexivity | split; [reflexivity |]]].
  eexists. split; reflexivity.
Qed.

Lemma filter_set_resolution (label id : string) (rows : list IncidentRow) :
  filter (fun r => String.eqb (i_id r) id) (map (set_resolution label id) rows) =
    map (set_resolution label id) (filter (fun r => String.eqb (i_id r) id) rows).
Proof.
  induction rows as [| r rows IH]; [reflexivity |].
  cbn [map filter]. rewrite IH.
  assert (Hid : i_id (set_resolution label id r) = i_id r).
  { unfold set_resolution. now destruct (String.eqb (i_id r) id). }
  rewrite Hid. now destruct (String.eqb (i_id r) id).
Qed.

(** C5, as the code has it.  After a [SaveReview] that returned nil,
    [ViewIncident] of the same id returns an incident whose resolution is
    [res] and whose comments include one with the timestamp, author and
    message of the review's comment.  The label of [res] is in the comment's
    row of the store; the comments [ViewIncident] returns have no resolution. *)
Theorem review_then_view `{SortImpl} (uuid id : string) (res : Resolution)
    (comment : Comment) (db db' : Store) :
  SaveReview uuid id res comment db = (returned tt, db') ->
  exists inc,
    ViewIncident id db' = (returned inc, db')
    /\ Incident_Resolution inc = res
    /\ In comment (ReviewerComments inc)
    /\ In (mkCommentRow uuid id (Comment_Timestamp comment) (AuthorId comment)
             (Message comment) (Resolution_String res))
          (comments db').
Proof.
  rewrite SaveReview_cases.
  destruct (has_key i_id id (incidents db)) eqn:Ei; [| discriminate].
  destruct (has_key c_id uuid (comments db)); [discriminate |].
  intros [= <-]. apply has_key_spec in Ei.
  destruct (viewIncidentStmt_found id db Ei) as [row [rows [E [_ Hid]]]].
  rewrite ViewIncident_cases. unfold viewIncidentStmt in *. cbn [reviewed incidents].
  rewrite filter_set_resolution, E. cbn [map].
  eexists. split; [reflexivity |]. cbn [with_comments Incident_Resolution ReviewerComments].
  split; [| split].
  - unfold set_resolution. apply String.eqb_eq in Hid. rewrite Hid.
    cbn [incident_of_row i_resolution Incident_Resolution].
    apply Resolution_value_index_String.
  - apply (Permutation_in _ (sort_Sort_perm _)).
    unfold viewCommentsStmt. cbn [reviewed comments].
    rewrite filter_app, map_app. apply in_or_app. right.
    cbn [filter c_incident_id]. rewrite String.eqb_refl.
    left. now destruct comment.
  - cbn [reviewed comments]. apply in_or_app. right. now left.
Qed.

(** C5 on the sample store, under the stable insertion sort. *)
Lemma review_then_view_witness :
  exists inc,
    @ViewIncident stable_sort "inc-1"
      (snd (SaveReview "c-1" "inc-1" Resolution_RESOLUTION_ALERTED note one_report)) =
      (returned inc,
       snd (SaveReview "c-1" "inc-1" Resolution_RESOLUTION_ALERTED note one_report))
    /\ Incident_Resolution inc = Resolution_RESOLUTION_ALERTED
    /\ In note (ReviewerComments inc).
Proof.
  destruct (@review_then_view stable_sort "c-1" "inc-1" Resolution_RESOLUTION_ALERTED
              note one_report
              (snd (SaveReview "c-1" "inc-1" Resolution_RESOLUTION_ALERTED note one_report))
              eq_refl)
    as [inc [Hview [Hres [Hin _]]]].
  exists inc. auto.
Defined.

(** C5 as the claim has it fails: no returned comment tells which resolution
    its review set.  A review that accepts and a review that rejects, with the
    same comment, are viewed with different resolutions of the incident and
    the same list of comments. *)
Lemma viewed_comments_carry_no_resolution :
  exists accepted rejected,
    fst (@ViewIncident stable_sort "inc-1"
           (snd (SaveReview "c-1" "inc-1" Resolution_RESOLUTION_ACCEPTED note one_report))) =
      returned accepted
    /\ fst (@ViewIncident stable_sort "inc-1"
              (snd (SaveReview "c-1" "inc-1" Resolution_RESOLUTION_REJECTED note one_report))) =
         returned rejected
    /\ Incident_Resolution accepted = Resolution_RESOLUTION_ACCEPTED
    /\ Incident_Resolution rejected = Resolution_RESOLUTION_REJECTED
    /\ ReviewerComments accepted = [note]
    /\ ReviewerComments rejected = [note].
Proof. do 2 eexists. repeat split. Qed.

(** ** Labels outside the enumeration *)

Lemma selected_rows_read_as (p : IncidentRow -> bool) (db : Store) (row : IncidentRow)
    (res : Resolution) :
  NoDup (map i_id (incidents db)) -> In row (incidents db) ->
  Resolution_value_index (i_resolution row) = res ->
  lists_row_as row res db (returned (map incident_of_row (filter p (incidents db))), db).
Proof.
  intros Hnd Hin Hres. eexists. split; [reflexivity |].
  intros inc Hinc Hid. apply in_map_iff in Hinc. destruct Hinc as [r [<- Hr]].
  apply filter_In in Hr. destruct Hr as [Hr _].
  now rewrite (unique_key_row i_id (incidents db) r row Hnd Hr Hin Hid).
Qed.

(** C10. A row whose resolution column holds a string that is none of the
    enumerated labels is scanned without error into an incident whose
    resolution is UNSPECIFIED: the lookup in [Resolution_value] gives the zero
    value.  With ids unique, [ViewIncident] of its id returns that incident,
    and each of the four listing methods returns without error, any incident
    of that id among its results having the resolution UNSPECIFIED. *)
Theorem unknown_label_reads_unspecified `{SortImpl}
    (distance : float64 -> float64 -> float64 -> float64 -> float64)
    (center : Coordinates) (radius : float64) (since : Time) (region : Region)
    (db : Store) (row : IncidentRow) :
  canonical_label (i_resolution row) = false ->
  NoDup (map i_id (incidents db)) ->
  In row (incidents db) ->
  (exists inc,
     scanIncident (inr row) = inr inc
     /\ Incident_Resolution inc = Resolution_RESOLUTION_UNSPECIFIED)
  /\ (exists inc,
        ViewIncident (i_id row) db = (returned inc, db)
        /\ Incident_Resolution inc = Resolution_RESOLUTION_UNSPECIFIED)
  /\ lists_row_as row Resolution_RESOLUTION_UNSPECIFIED db (IncidentsWithoutReview db)
  /\ lists_row_as row Resolution_RESOLUTION_UNSPECIFIED db
       (IncidentsInRadius distance center radius db)
  /\ lists_row_as row Resolution_RESOLUTION_UNSPECIFIED db
       (IncidentsInRegion since region db)
  /\ lists_row_as row Resolution_RESOLUTION_UNSPECIFIED db
       (AlertingIncidents since region db).
Proof.
  intros Hlabel Hnd Hin.
  pose proof (Resolution_value_index_unknown _ Hlabel) as Hres.
  split; [| split].
  - exists (incident_of_row row). split; [reflexivity | exact Hres].
  - destruct (viewIncidentStmt_found (i_id row) db) as [r [rows [E [Hr Hk]]]].
    { now exists row. }
    rewrite ViewIncident_cases, E. eexists. split; [reflexivity |].
    now rewrite (unique_key_row i_id (incidents db) r row Hnd Hr Hin Hk).
  - rewrite IncidentsWithoutReview_cases, IncidentsInRadius_cases,
      IncidentsInRegion_cases, AlertingIncidents_cases.
    unfold incidentsWithoutReviewStmt, incidentsInRadiusStmt, incidentsInRegionStmt,
      alertingIncidentsStmt.
    rewrite filter_filter_and.
    repeat split; now apply selected_rows_read_as.
Qed.

Lemma unknown_label_reads_unspecified_witness :
  exists inc,
    @ViewIncident stable_sort "inc-1" (mkStore [report_row "resolved"] [] []) =
      (returned inc, mkStore [report_row "resolved"] [] [])
    /\ Incident_Resolution inc = Resolution_RESOLUTION_UNSPECIFIED.
Proof.
  apply (@unknown_label_reads_unspecified stable_sort
           (fun _ _ _ _ => 0%float) centre 1%float 0 box
           (mkStore [report_row "resolved"] [] []) (report_row "resolved") eq_refl).
  - simpl. repeat constructor. simpl. tauto.
  - simpl. auto.
Defined.

(** The listing statements compare the column with enumerated labels, so they
    never select a row whose label is none of them. *)
Lemma unknown_label_not_selected (since north south west east : Z) (db : Store)
    (row : IncidentRow) :
  canonical_label (i_resolution row) = false ->
  ~ In row (incidentsWithoutReviewStmt "RESOLUTION_UNSPECIFIED" db)
  /\ ~ In row (incidentsInRadiusStmt db)
  /\ ~ In row (incidentsInRegionStmt since north south west east db)
  /\ ~ In row (alertingIncidentsStmt since north south west east db).
Proof.
  intros Hlabel.
  assert (Hne : forall r, String.eqb (i_resolution row) (Resolution_String r) = false).
  { intros r. destruct (String.eqb_spec (i_resolution row) (Resolution_String r)) as [E |];
      [| reflexivity].
    rewrite E, canonical_label_String in Hlabel. discriminate. }
  unfold incidentsWithoutReviewStmt, incidentsInRadiusStmt, incidentsInRegionStmt,
    alertingIncidentsStmt.
  repeat split; intros Hin; apply filter_In in Hin; destruct Hin as [_ Hp];
    revert Hp;
    change "RESOLUTION_UNSPECIFIED"
      with (Resolution_String Resolution_RESOLUTION_UNSPECIFIED);
    rewrite ?Hne; discriminate.
Qed.

(** ** The primary keys *)

Lemma unique_keys_empty : unique_keys empty_store.
Proof. repeat split; constructor. Qed.

Lemma not_has_key_not_In {R : Type} (key : R -> string) (k : string) (rows : list R) :
  has_key key k rows = false -> ~ In k (map key rows).
Proof. intros H Hin. apply has_key_map in Hin. congruence. Qed.

(** Whatever a writing method does, no key comes to be held twice. *)
Lemma writes_keep_unique_keys (db : Store) :
  unique_keys db ->
  (forall inc, unique_keys (snd (SaveIncident inc db)))
  /\ (forall uuid id res comment, unique_keys (snd (SaveReview uuid id res comment db)))
  /\ (forall now session, unique_keys (snd (SaveSession now session db))).
Proof.
  intros [Hi [Hc Hs]]. split; [| split].
  - intros inc. rewrite SaveIncident_cases.
    destruct (has_key i_id (Id inc) (incidents db)) eqn:E; [now repeat split |].
    destruct (Incident_Timestamp inc); [| now repeat split].
    destruct (Incident_Coordinates inc); [| now repeat split].
    repeat split; simpl; auto.
    rewrite map_app. apply NoDup_snoc; [exact Hi |].
    now apply not_has_key_not_In.
  - intros uuid id res comment. rewrite SaveReview_cases.
    destruct (has_key i_id id (incidents db)); [| now repeat split].
    destruct (has_key c_id uuid (comments db)) eqn:E; [now repeat split |].
    repeat split; simpl; auto.
    + now rewrite map_set_resolution_ids.
    + rewrite map_app. apply NoDup_snoc; [exact Hc |].
      now apply not_has_key_not_In.
  - intros now session. rewrite SaveSession_cases.
    destruct (has_key s_id session (sessions db)) eqn:E; [now repeat split |].
    repeat split; simpl; auto.
    rewrite map_app. apply NoDup_snoc; [exact Hs |].
    now apply not_has_key_not_In.
Qed.

(** * Further properties *)

(** ** Create, then view *)

Lemma sorted_nothing `{SortImpl} : sort_Sort [] = [].
Proof. apply Permutation_nil. apply sort_Sort_perm. Qed.

Lemma no_comment_rows (id : string) (db : Store) :
  ~ In id (map c_incident_id (comments db)) -> viewCommentsStmt id db = [].
Proof.
  intros H. unfold viewCommentsStmt. apply filter_none.
  apply (proj2 (has_key_false c_incident_id id (comments db))).
  intros [r [Hr Hk]]. apply H. rewrite <- Hk. now apply in_map.
Qed.

Lemma viewIncidentStmt_new_row (row : IncidentRow) (db : Store) :
  ~ In (i_id row) (map i_id (incidents db)) ->
  viewIncidentStmt (i_id row)
    (mkStore (incidents db ++ [row]) (comments db) (sessions db)) = [row].
Proof.
  intros H. unfold viewIncidentStmt. cbn [incidents].
  rewrite filter_app, filter_none.
  - cbn [filter app]. now rewrite String.eqb_refl.
  - apply (proj2 (has_key_false i_id (i_id row) (incidents db))).
    intros [r [Hr Hk]]. apply H. rewrite <- Hk. now apply in_map.
Qed.

(** X1. An incident with a timestamp and coordinates (numbers, not NaN:
    SQLite stores NaN as NULL, which the columns refuse), under an id that no
    incident has and no comment refers to, is saved, and [ViewIncident] of its
    id then returns it with what the row keeps of it: the id, the seconds of
    the timestamp (its nanoseconds are not stored and come back as 0), the
    description, the coordinates, the resolution and the image id, and no
    comments, whatever [ReviewerComments] the saved incident carried. *)
Theorem create_then_view `{SortImpl} (inc : Incident) (timestamp : Timestamp)
    (coordinates : Coordinates) (db : Store) :
  Incident_Timestamp inc = Some timestamp ->
  Incident_Coordinates inc = Some coordinates ->
  PrimFloat.is_nan (Lat coordinates) = false ->
  PrimFloat.is_nan (Lon coordinates) = false ->
  ~ In (Id inc) (map i_id (incidents db)) ->
  ~ In (Id inc) (map c_incident_id (comments db)) ->
  exists db1,
    SaveIncident inc db = (returned tt, db1)
    /\ ViewIncident (Id inc) db1 =
         (returned
            (mkIncident (Id inc) (Some (mkTimestamp (Seconds timestamp) 0))
               (Description inc) (Some coordinates) (Incident_Resolution inc)
               (ImageId inc) []),
          db1).
Proof.
  intros Hts Hco _ _ Hnew Hnone.
  rewrite SaveIncident_cases, Hts, Hco.
  destruct (has_key i_id (Id inc) (incidents db)) eqn:E.
  { apply has_key_map in E. contradiction. }
  eexists. split; [reflexivity |].
  rewrite ViewIncident_cases.
  change (Id inc) with (i_id (incident_row inc timestamp coordinates)) at 1.
  rewrite viewIncidentStmt_new_row by exact Hnew.
  rewrite (no_comment_rows (Id inc)) by exact Hnone.
  cbn [map]. rewrite sorted_nothing.
  unfold incident_of_row, incident_row, with_comments.
  cbn [i_id i_timestamp i_description i_lat i_lon i_resolution i_image Id
       Incident_Timestamp Description Incident_Coordinates Incident_Resolution ImageId].
  rewrite Resolution_value_index_String. now destruct coordinates.
Qed.

Lemma create_then_view_witness :
  exists db1,
    SaveIncident report empty_store = (returned tt, db1)
    /\ @ViewIncident stable_sort "inc-1" db1 =
         (returned
            (mkIncident "inc-1" (Some (mkTimestamp 100 0)) "broken light" (Some centre)
               Resolution_RESOLUTION_UNSPECIFIED "img-1" []),
          db1).
Proof.
  apply (@create_then_view stable_sort report (mkTimestamp 100 7) centre empty_store);
    try reflexivity; simpl; tauto.
Defined.

(** X2. [ViewIncident] returns [ErrDoesNotExist] exactly when no incident has
    the id; when one has, it returns an incident of that id.  Either way the
    store is left as it was. *)
Theorem ViewIncident_found_iff `{SortImpl} (id : string) (db : Store) :
  (ViewIncident id db = (failed database_ErrDoesNotExist, db) <->
   ~ In id (map i_id (incidents db)))
  /\ (In id (map i_id (incidents db)) ->
      exists inc, ViewIncident id db = (returned inc, db) /\ Id inc = id)
  /\ snd (ViewIncident id db) = db.
Proof.
  rewrite ViewIncident_cases.
  destruct (has_key i_id id (incidents db)) eqn:E.
  - pose proof (proj1 (has_key_map i_id id (incidents db)) E) as Hin.
    destruct (viewIncidentStmt_found id db (proj1 (has_key_spec _ _ _) E))
      as [row [rows [-> [_ Hid]]]].
    split; [| split].
    + split; [discriminate | contradiction].
    + intros _. eexists. split; [reflexivity | exact Hid].
    + reflexivity.
  - assert (Hnot : ~ In id (map i_id (incidents db))).
    { now apply not_has_key_not_In. }
    unfold viewIncidentStmt. fold (has_key i_id id (incidents db)) in E.
    rewrite (filter_none _ _ E).
    split; [| split]; [tauto | contradiction | reflexivity].
Qed.

Lemma ViewIncident_found_iff_witness :
  @ViewIncident stable_sort "inc-9" one_report = (failed database_ErrDoesNotExist, one_report)
  /\ exists inc,
       @ViewIncident stable_sort "inc-1" one_report = (returned inc, one_report)
       /\ Id inc = "inc-1".
Proof.
  split.
  - apply (proj1 (@ViewIncident_found_iff stable_sort "inc-9" one_report)).
    simpl. intros [H | []]. discriminate H.
  - apply (proj1 (proj2 (@ViewIncident_found_iff stable_sort "inc-1" one_report))).
    simpl. auto.
Defined.

(** ** How long a session lasts *)

Lemma Time_Unix_bounds (t : Time) :
  Time_Unix t * time_Second <= t < (Time_Unix t + 1) * time_Second.
Proof.
  unfold Time_Unix, time_Second.
  pose proof (Z.div_mod t 1000000000 ltac:(lia)).
  pose proof (Z.mod_pos_bound t 1000000000 ltac:(lia)). lia.
Qed.

(** What [IsValidSession] answers for a token just saved. *)
Lemma session_window (now now' : Time) (session : string) (db : Store) :
  ~ In session (map s_id (sessions db)) ->
  (now' <= now + 3599 * time_Second ->
   IsValidSession now' session
     (mkStore (incidents db) (comments db)
        (sessions db ++ [mkSessionRow session (Time_Unix now + 3600)])) =
     (returned tt,
      mkStore (incidents db) (comments db)
        (sessions db ++ [mkSessionRow session (Time_Unix now + 3600)])))
  /\ (now' > now + time_Hour ->
      IsValidSession now' session
        (mkStore (incidents db) (comments db)
           (sessions db ++ [mkSessionRow session (Time_Unix now + 3600)])) =
        (failed session_expired,
         mkStore (incidents db) (comments db)
           (sessions db ++ [mkSessionRow session (Time_Unix now + 3600)]))).
Proof.
  intros Hnew.
  assert (E : has_key s_id session (sessions db) = false).
  { destruct (has_key s_id session (sessions db)) eqn:E; [| reflexivity].
    apply has_key_map in E. contradiction. }
  rewrite IsValidSession_cases. unfold isValidSessionStmt. cbn [sessions].
  rewrite filter_app, (filter_none _ _ E). cbn [filter app s_id map s_expiry].
  rewrite String.eqb_refl. cbn [map s_expiry].
  pose proof (Time_Unix_bounds now) as Hb.
  unfold time_Unix, time_Hour, time_Second in *.
  split; intros Hle.
  - destruct (Z.gtb_spec now' ((Time_Unix now + 3600) * 1000000000 + 0)); [lia | reflexivity].
  - destruct (Z.gtb_spec now' ((Time_Unix now + 3600) * 1000000000 + 0)); [reflexivity | lia].
Qed.

(** X3. A token that no session row has is saved, and from then on
    [IsValidSession] accepts it at every clock reading up to 3599 seconds
    after the save and refuses it as expired at every reading more than an
    hour after: the expiry is kept in whole seconds, rounded down. *)
Theorem session_lifetime (now now' : Time) (session : string) (db : Store) :
  ~ In session (map s_id (sessions db)) ->
  exists db',
    SaveSession now session db = (returned tt, db')
    /\ (now' <= now + 3599 * time_Second ->
        IsValidSession now' session db' = (returned tt, db'))
    /\ (now' > now + time_Hour ->
        IsValidSession now' session db' = (failed session_expired, db')).
Proof.
  intros Hnew. rewrite SaveSession_cases.
  destruct (has_key s_id session (sessions db)) eqn:E.
  { apply has_key_map in E. contradiction. }
  eexists. split; [reflexivity |].
  exact (session_window now now' session db Hnew).
Qed.

Lemma session_lifetime_witness :
  exists db',
    SaveSession 1500000000 "tok" empty_store = (returned tt, db')
    /\ IsValidSession 3600000000000 "tok" db' = (returned tt, db')
    /\ IsValidSession 3601500000001 "tok" db' = (failed session_expired, db').
Proof.
  destruct (session_lifetime 1500000000 3600000000000 "tok" empty_store)
    as [db' [Hsave [Hvalid _]]]; [simpl; tauto |].
  destruct (session_lifetime 1500000000 3601500000001 "tok" empty_store)
    as [db'' [Hsave' [_ Hexpired]]]; [simpl; tauto |].
  assert (db'' = db') by congruence. subst db''.
  exists db'. split; [exact Hsave | split].
  - apply Hvalid. unfold time_Second. lia.
  - apply Hexpired. unfold time_Hour, time_Second. lia.
Defined.

(** ** What every sequence of calls keeps *)

Lemma same_but_resolution_refl (r : IncidentRow) : same_but_resolution r r.
Proof. now repeat split. Qed.

Lemma same_but_resolution_trans (a b c : IncidentRow) :
  same_but_resolution a b -> same_but_resolution b c -> same_but_resolution a c.
Proof.
  unfold same_but_resolution. intros H1 H2.
  decompose [and] H1. decompose [and] H2. repeat split; congruence.
Qed.

Lemma Forall2_same_refl (l : list IncidentRow) : Forall2 same_but_resolution l l.
Proof. induction l; constructor; auto using same_but_resolution_refl. Qed.

Lemma Forall2_same_trans (l1 l2 l3 : list IncidentRow) :
  Forall2 same_but_resolution l1 l2 -> Forall2 same_but_resolution l2 l3 ->
  Forall2 same_but_resolution l1 l3.
Proof.
  intros H. revert l3. induction H as [| a b l1 l2 Hab _ IH]; intros l3 H23.
  - inversion H23. constructor.
  - inversion H23 as [| ? c ? l3' Hbc Hrest]; subst. constructor.
    + eapply same_but_resolution_trans; eauto.
    + now apply IH.
Qed.

Lemma Forall2_set_resolution (label id : string) (rows : list IncidentRow) :
  Forall2 same_but_resolution rows (map (set_resolution label id) rows).
Proof.
  induction rows as [| r rows IH]; cbn [map]; constructor; [| exact IH].
  unfold set_resolution. destruct (String.eqb (i_id r) id); now repeat split.
Qed.

Lemma only_grows_refl (db : Store) : only_grows db db.
Proof.
  split; [| split].
  - exists (incidents db), []. rewrite app_nil_r. split; [reflexivity |].
    apply Forall2_same_refl.
  - exists []. now rewrite app_nil_r.
  - exists []. now rewrite app_nil_r.
Qed.

Lemma only_grows_trans (a b c : Store) : only_grows a b -> only_grows b c -> only_grows a c.
Proof.
  intros [[k1 [a1 [E1 F1]]] [[c1 Ec1] [s1 Es1]]] [[k2 [a2 [E2 F2]]] [[c2 Ec2] [s2 Es2]]].
  split; [| split].
  - rewrite E1 in F2. apply Forall2_app_inv_l in F2.
    destruct F2 as [k21 [k22 [F21 [F22 ->]]]].
    exists k21, (k22 ++ a2). split.
    + now rewrite E2, app_assoc.
    + eapply Forall2_same_trans; eauto.
  - exists (c1 ++ c2). now rewrite Ec2, Ec1, app_assoc.
  - exists (s1 ++ s2). now rewrite Es2, Es1, app_assoc.
Qed.

Lemma after_call_only_grows (db : Store) (c : call) : only_grows db (after_call db c).
Proof.
  destruct c as [inc | uuid id res comment | now session]; cbn [after_call].
  - rewrite SaveIncident_cases.
    destruct (has_key i_id (Id inc) (incidents db)); [apply only_grows_refl |].
    destruct (Incident_Timestamp inc); [| apply only_grows_refl].
    destruct (Incident_Coordinates inc); [| apply only_grows_refl].
    cbn [snd]. split; [| split]; cbn [incidents comments sessions].
    + eexists _, _. split; [reflexivity | apply Forall2_same_refl].
    + exists []. now rewrite app_nil_r.
    + exists []. now rewrite app_nil_r.
  - rewrite SaveReview_cases.
    destruct (has_key i_id id (incidents db)); [| apply only_grows_refl].
    destruct (has_key c_id uuid (comments db)); [apply only_grows_refl |].
    cbn [snd]. split; [| split]; cbn [reviewed incidents comments sessions].
    + exists (map (set_resolution (Resolution_String res) id) (incidents db)), [].
      rewrite app_nil_r. split; [reflexivity | apply Forall2_set_resolution].
    + eexists. reflexivity.
    + exists []. now rewrite app_nil_r.
  - rewrite SaveSession_cases.
    destruct (has_key s_id session (sessions db)); [apply only_grows_refl |].
    cbn [snd]. split; [| split]; cbn [incidents comments sessions].
    + exists (incidents db), []. rewrite app_nil_r.
      split; [reflexivity | apply Forall2_same_refl].
    + exists []. now rewrite app_nil_r.
    + eexists. reflexivity.
Qed.

(** X4. Whatever calls are made and in whatever order, nothing is taken out
    of the store: the incidents that were there are still there, in order and
    with every column but the resolution as it was, and the comments and the
    sessions that were there are still there, in order and unchanged; what is
    new comes after them. *)
Theorem calls_only_add (calls : list call) (db : Store) :
  only_grows db (after_calls calls db).
Proof.
  unfold after_calls. revert db.
  induction calls as [| c calls IH]; intros db; cbn [fold_left].
  - apply only_grows_refl.
  - eapply only_grows_trans; [apply after_call_only_grows | apply IH].
Qed.

Lemma latest_comment_snoc (id : string) (c : CommentRow) (ics : list IncidentRow)
    (cs : list CommentRow) (ss : list SessionRow) :
  latest_comment id (mkStore ics (cs ++ [c]) ss) =
    if String.eqb (c_incident_id c) id then Some c
    else latest_comment id (mkStore ics cs ss).
Proof.
  unfold latest_comment, viewCommentsStmt. cbn [comments].
  rewrite filter_app. cbn [filter].
  destruct (String.eqb (c_incident_id c) id).
  - now rewrite rev_app_distr.
  - now rewrite app_nil_r.
Qed.

Lemma latest_comment_In (id : string) (db : Store) (c : CommentRow) :
  latest_comment id db = Some c -> In c (comments db) /\ c_incident_id c = id.
Proof.
  unfold latest_comment, viewCommentsStmt. intros H.
  assert (Hin : In c (rev (filter (fun r => String.eqb (c_incident_id r) id) (comments db)))).
  { destruct (rev _) as [| x l]; [discriminate |]. injection H as ->. now left. }
  apply in_rev, filter_In in Hin. destruct Hin as [Hin Hk].
  split; [exact Hin | now apply String.eqb_eq].
Qed.

Lemma consistent_empty : consistent empty_store.
Proof.
  split; [apply unique_keys_empty |]. split.
  - intros c [].
  - split; [| split].
    + intros r [].
    + intros c [].
    + intros r c [].
Qed.

Lemma consistent_after_call (db : Store) (op : call) :
  consistent db -> consistent (after_call db op).
Proof.
  intros [Hkeys [Hrefs [Hinc [Hcom Hlatest]]]].
  split; [| split].
  - destruct (writes_keep_unique_keys db Hkeys) as [H1 [H2 H3]].
    destruct op; cbn [after_call]; auto.
  - destruct op as [inc | uuid id res comment | now session]; cbn [after_call].
    + rewrite SaveIncident_cases.
      destruct (has_key i_id (Id inc) (incidents db)); [exact Hrefs |].
      destruct (Incident_Timestamp inc) as [ts |]; [| exact Hrefs].
      destruct (Incident_Coordinates inc) as [co |]; [| exact Hrefs].
      intros c Hc. cbn [snd incidents comments] in *.
      rewrite map_app. apply in_or_app. left. now apply Hrefs.
    + rewrite SaveReview_cases.
      destruct (has_key i_id id (incidents db)) eqn:Ei; [| exact Hrefs].
      destruct (has_key c_id uuid (comments db)); [exact Hrefs |].
      intros c Hc. cbn [snd reviewed incidents comments] in *.
      rewrite map_set_resolution_ids. apply in_app_or in Hc.
      destruct Hc as [Hc | [<- | []]]; [now apply Hrefs |].
      cbn [c_incident_id]. now apply has_key_map.
    + rewrite SaveSession_cases.
      destruct (has_key s_id session (sessions db)); exact Hrefs.
  - destruct op as [inc | uuid id res comment | now session]; cbn [after_call].
    + rewrite SaveIncident_cases.
      destruct (has_key i_id (Id inc) (incidents db)) eqn:Ei; [now repeat split |].
      destruct (Incident_Timestamp inc) as [ts |]; [| now repeat split].
      destruct (Incident_Coordinates inc) as [co |]; [| now repeat split].
      cbn [snd]. split; [| split]; cbn [incidents comments].
      * intros r Hr. apply in_app_or in Hr. destruct Hr as [Hr | [<- | []]]; [auto |].
        apply canonical_label_String.
      * exact Hcom.
      * intros r c Hr Hl.
        assert (Hl' : latest_comment (i_id r) db = Some c) by exact Hl.
        apply in_app_or in Hr. destruct Hr as [Hr | [<- | []]]; [now apply Hlatest |].
        exfalso. apply latest_comment_In in Hl'. destruct Hl' as [Hc Hk].
        apply Hrefs in Hc. rewrite Hk in Hc. cbn [incident_row i_id] in Hc.
        apply has_key_map in Hc. congruence.
    + rewrite SaveReview_cases.
      destruct (has_key i_id id (incidents db)); [| now repeat split].
      destruct (has_key c_id uuid (comments db)); [now repeat split |].
      cbn [snd]. split; [| split]; cbn [reviewed incidents comments].
      * intros r Hr. apply in_map_iff in Hr. destruct Hr as [r0 [<- Hr0]].
        unfold set_resolution. destruct (String.eqb (i_id r0) id); cbn [i_resolution].
        -- apply canonical_label_String.
        -- now apply Hinc.
      * intros c Hc. apply in_app_or in Hc. destruct Hc as [Hc | [<- | []]]; [auto |].
        apply canonical_label_String.
      * intros r c Hr Hl. unfold reviewed in Hl. rewrite latest_comment_snoc in Hl.
        cbn [c_incident_id] in Hl.
        apply in_map_iff in Hr. destruct Hr as [r0 [<- Hr0]].
        unfold set_resolution in *.
        destruct (String.eqb (i_id r0) id) eqn:E; cbn [i_id i_resolution] in *.
        -- apply String.eqb_eq in E. rewrite E, String.eqb_refl in Hl.
           now injection Hl as <-.
        -- rewrite String.eqb_sym, E in Hl.
           apply (Hlatest r0 c Hr0). exact Hl.
    + rewrite SaveSession_cases.
      destruct (has_key s_id session (sessions db)); [now repeat split |].
      cbn [snd]. split; [| split]; cbn [incidents comments]; [exact Hinc | exact Hcom |].
      intros r c Hr Hl. apply (Hlatest r c Hr). exact Hl.
Qed.

Lemma consistent_after_calls (calls : list call) (db : Store) :
  consistent db -> consistent (after_calls calls db).
Proof.
  unfold after_calls. revert db.
  induction calls as [| c calls IH]; intros db H; cbn [fold_left]; [exact H |].
  apply IH. now apply consistent_after_call.
Qed.

(** X5. In every store that calls of the package build from the empty one,
    no two incidents, no two comments and no two sessions share an id, and
    every comment refers to a stored incident: [SaveReview] writes a comment
    only under the id it has found, and nothing deletes an incident. *)
Theorem calls_keep_references (calls : list call) :
  unique_keys (after_calls calls empty_store)
  /\ comments_have_incidents (after_calls calls empty_store).
Proof.
  destruct (consistent_after_calls calls empty_store consistent_empty) as [H1 [H2 _]].
  now split.
Qed.

(** X6. In every store that calls of the package build from the empty one,
    every resolution column holds one of the enumerated labels, so the zero
    value that [scanIncident] falls back on is never needed; and an incident
    that has comments carries the label of the comment written last for it. *)
Theorem calls_keep_labels (calls : list call) :
  labels_agree (after_calls calls empty_store).
Proof.
  now destruct (consistent_after_calls calls empty_store consistent_empty) as [_ [_ H]].
Qed.

(** ** Who is listed where *)

Lemma lists_id_selected (p : IncidentRow -> bool) (db : Store) (row : IncidentRow) :
  NoDup (map i_id (incidents db)) -> In row (incidents db) ->
  (lists_id (i_id row) (returned (map incident_of_row (filter p (incidents db))), db) <->
   p row = true).
Proof.
  intros Hnd Hin. rewrite <- (listed_iff_selected p (incidents db) row Hnd Hin).
  unfold lists_id. cbn [fst]. split.
  - intros [incs [[= <-] H]]. exact H.
  - intros H. eexists. split; [reflexivity | exact H].
Qed.

Lemma label_eqb_String (label : string) (r : Resolution) :
  String.eqb label (Resolution_String r) = true -> Resolution_value_index label = r.
Proof.
  intros H. apply String.eqb_eq in H. subst label. apply Resolution_value_index_String.
Qed.

Lemma String_eqb_labels (r r' : Resolution) :
  String.eqb (Resolution_String r) (Resolution_String r') = Resolution_eqb r r'.
Proof. now destruct r, r'. Qed.

Lemma Resolution_eqb_eq (r r' : Resolution) : Resolution_eqb r r' = true <-> r = r'.
Proof. destruct r, r'; cbn; split; congruence. Qed.

(** X7. With ids unique, [IncidentsWithoutReview] returns an incident of a
    stored row exactly when the row's label is "RESOLUTION_UNSPECIFIED", every
    incident it returns has the resolution UNSPECIFIED, and none of them is
    returned by [IncidentsInRadius], [IncidentsInRegion] or
    [AlertingIncidents], whatever their arguments: an incident is never both
    waiting for review and shown. *)
Theorem IncidentsWithoutReview_exact (db : Store) (row : IncidentRow) :
  NoDup (map i_id (incidents db)) ->
  In row (incidents db) ->
  (lists_id (i_id row) (IncidentsWithoutReview db) <->
   i_resolution row = "RESOLUTION_UNSPECIFIED")
  /\ (exists incs,
        IncidentsWithoutReview db = (returned incs, db)
        /\ forall inc, In inc incs ->
             Incident_Resolution inc = Resolution_RESOLUTION_UNSPECIFIED)
  /\ (lists_id (i_id row) (IncidentsWithoutReview db) ->
      forall distance center radius since region,
        ~ lists_id (i_id row) (IncidentsInRadius distance center radius db)
        /\ ~ lists_id (i_id row) (IncidentsInRegion since region db)
        /\ ~ lists_id (i_id row) (AlertingIncidents since region db)).
Proof.
  intros Hnd Hin.
  assert (Hiff : lists_id (i_id row) (IncidentsWithoutReview db) <->
                 i_resolution row = "RESOLUTION_UNSPECIFIED").
  { rewrite IncidentsWithoutReview_cases. unfold incidentsWithoutReviewStmt.
    rewrite (lists_id_selected _ db row Hnd Hin). apply String.eqb_eq. }
  split; [exact Hiff | split].
  - rewrite IncidentsWithoutReview_cases. eexists. split; [reflexivity |].
    intros inc Hinc. apply in_map_iff in Hinc. destruct Hinc as [r [<- Hr]].
    apply filter_In in Hr. destruct Hr as [_ Hr].
    exact (label_eqb_String _ Resolution_RESOLUTION_UNSPECIFIED Hr).
  - intros Hlisted. apply Hiff in Hlisted. intros distance center radius since region.
    rewrite IncidentsInRadius_cases, IncidentsInRegion_cases, AlertingIncidents_cases.
    unfold incidentsInRadiusStmt, incidentsInRegionStmt, alertingIncidentsStmt.
    rewrite filter_filter_and, !(lists_id_selected _ db row Hnd Hin), Hlisted.
    change "RESOLUTION_UNSPECIFIED"
      with (Resolution_String Resolution_RESOLUTION_UNSPECIFIED).
    rewrite !String_eqb_labels. cbn [Resolution_eqb orb andb].
    repeat split; discriminate.
Qed.

Lemma IncidentsWithoutReview_exact_witness :
  lists_id "inc-1" (IncidentsWithoutReview one_report)
  /\ ~ lists_id "inc-1" (IncidentsInRegion 0 box one_report).
Proof.
  assert (Hnd : NoDup (map i_id (incidents one_report))).
  { simpl. repeat constructor. simpl. tauto. }
  assert (Hin : In (report_row "RESOLUTION_UNSPECIFIED") (incidents one_report))
    by (simpl; auto).
  destruct (IncidentsWithoutReview_exact one_report (report_row "RESOLUTION_UNSPECIFIED")
              Hnd Hin) as [Hiff [_ Hnot]].
  assert (Hlisted : lists_id "inc-1" (IncidentsWithoutReview one_report))
    by (apply Hiff; reflexivity).
  split; [exact Hlisted |].
  apply (Hnot Hlisted (fun _ _ _ _ => 0%float) centre 1%float 0 box).
Defined.

Lemma reviewed_row (uuid id : string) (res : Resolution) (comment : Comment) (db : Store)
    (row : IncidentRow) :
  In row (incidents db) -> i_id row = id ->
  In (set_resolution (Resolution_String res) id row)
    (incidents (reviewed uuid id res comment db))
  /\ i_id (set_resolution (Resolution_String res) id row) = id
  /\ i_resolution (set_resolution (Resolution_String res) id row) = Resolution_String res.
Proof.
  intros Hin Hid. split; [now apply in_map |].
  unfold set_resolution. apply String.eqb_eq in Hid. rewrite Hid.
  apply String.eqb_eq in Hid. now split.
Qed.

(** X8. With ids unique, after a [SaveReview] that returned nil the reviewed
    incident is returned by [IncidentsWithoutReview] exactly when the review
    set UNSPECIFIED; it can be returned by [IncidentsInRadius] and
    [IncidentsInRegion] only when the review set ACCEPTED or ALERTED, and by
    [AlertingIncidents] only when it set ALERTED. *)
Theorem review_decides_listing (uuid id : string) (res : Resolution) (comment : Comment)
    (db db' : Store) :
  NoDup (map i_id (incidents db)) ->
  SaveReview uuid id res comment db = (returned tt, db') ->
  (lists_id id (IncidentsWithoutReview db') <-> res = Resolution_RESOLUTION_UNSPECIFIED)
  /\ (forall distance center radius,
        lists_id id (IncidentsInRadius distance center radius db') ->
        res = Resolution_RESOLUTION_ACCEPTED \/ res = Resolution_RESOLUTION_ALERTED)
  /\ (forall since region,
        (lists_id id (IncidentsInRegion since region db') ->
         res = Resolution_RESOLUTION_ACCEPTED \/ res = Resolution_RESOLUTION_ALERTED)
        /\ (lists_id id (AlertingIncidents since region db') ->
            res = Resolution_RESOLUTION_ALERTED)).
Proof.
  intros Hnd. rewrite SaveReview_cases.
  destruct (has_key i_id id (incidents db)) eqn:Ei; [| discriminate].
  destruct (has_key c_id uuid (comments db)); [discriminate |].
  intros [= <-]. apply has_key_spec in Ei. destruct Ei as [row [Hin Hid]].
  destruct (reviewed_row uuid id res comment db row Hin Hid) as [Hin' [Hid' Hlabel]].
  assert (Hnd' : NoDup (map i_id (incidents (reviewed uuid id res comment db)))).
  { cbn [reviewed incidents]. now rewrite map_set_resolution_ids. }
  set (db' := reviewed uuid id res comment db) in *.
  set (row' := set_resolution (Resolution_String res) id row) in *.
  rewrite <- Hid'.
  split; [| split].
  - rewrite IncidentsWithoutReview_cases. unfold incidentsWithoutReviewStmt.
    rewrite (lists_id_selected _ _ _ Hnd' Hin'), Hlabel.
    change "RESOLUTION_UNSPECIFIED"
      with (Resolution_String Resolution_RESOLUTION_UNSPECIFIED).
    rewrite String_eqb_labels. apply Resolution_eqb_eq.
  - intros distance center radius.
    rewrite IncidentsInRadius_cases. unfold incidentsInRadiusStmt.
    rewrite filter_filter_and, (lists_id_selected _ _ _ Hnd' Hin'), Hlabel.
    rewrite !String_eqb_labels. destruct res; cbn; auto; discriminate.
  - intros since region.
    rewrite IncidentsInRegion_cases, AlertingIncidents_cases.
    unfold incidentsInRegionStmt, alertingIncidentsStmt.
    rewrite !(lists_id_selected _ _ _ Hnd' Hin'), Hlabel.
    rewrite !String_eqb_labels. destruct res; cbn; split; auto; discriminate.
Qed.

Lemma review_decides_listing_witness :
  ~ lists_id "inc-1"
      (IncidentsWithoutReview
         (snd (SaveReview "c-1" "inc-1" Resolution_RESOLUTION_REJECTED note one_report)))
  /\ (forall since region,
        ~ lists_id "inc-1"
            (IncidentsInRegion since region
               (snd (SaveReview "c-1" "inc-1" Resolution_RESOLUTION_REJECTED note one_report)))).
Proof.
  assert (Hnd : NoDup (map i_id (incidents one_report))).
  { simpl. repeat constructor. simpl. tauto. }
  destruct (review_decides_listing "c-1" "inc-1" Resolution_RESOLUTION_REJECTED note one_report
              (snd (SaveReview "c-1" "inc-1" Resolution_RESOLUTION_REJECTED note one_report))
              Hnd eq_refl) as [Hiff [_ Hregion]].
  split.
  - intros H. apply Hiff in H. discriminate H.
  - intros since region H. apply (proj1 (Hregion since region)) in H.
    destruct H as [H | H]; discriminate H.
Defined.

Lemma filter_map_swap {A B : Type} (f : B -> bool) (g : A -> B) (l : list A) :
  filter f (map g l) = map g (filter (fun a => f (g a)) l).
Proof.
  induction l as [| a l IH]; cbn [map filter]; [reflexivity |].
  destruct (f (g a)); cbn [map]; now rewrite IH.
Qed.

(** X9. The incidents [AlertingIncidents] returns are those that
    [IncidentsInRegion] returns for the same arguments and whose resolution is
    ALERTED, in the same order. *)
Theorem alerting_is_region_alerted (since : Time) (region : Region) (db : Store) :
  exists incs,
    IncidentsInRegion since region db = (returned incs, db)
    /\ AlertingIncidents since region db =
         (returned
            (filter (fun inc =>
                       Resolution_eqb (Incident_Resolution inc) Resolution_RESOLUTION_ALERTED)
                    incs),
          db).
Proof.
  rewrite IncidentsInRegion_cases, AlertingIncidents_cases.
  eexists. split; [reflexivity |]. f_equal. f_equal.
  unfold incidentsInRegionStmt, alertingIncidentsStmt.
  rewrite filter_map_swap, filter_filter_and. f_equal.
  apply filter_ext. intros r. cbn [incident_of_row Incident_Resolution].
  destruct (since_and_region _ _ _ _ _ r); [| now rewrite !andb_false_r].
  rewrite !andb_true_r.
  destruct (String.eqb (i_resolution r) (Resolution_String Resolution_RESOLUTION_ALERTED))
    eqn:Ealr.
  - rewrite (label_eqb_String _ _ Ealr). now rewrite orb_true_r.
  - rewrite orb_false_r.
    destruct (String.eqb (i_resolution r) (Resolution_String Resolution_RESOLUTION_ACCEPTED))
      eqn:Eacc; [| reflexivity].
    now rewrite (label_eqb_String _ _ Eacc).
Qed.

(** ** An incident without a timestamp or without coordinates *)


(** ** The lists and the view *)

Lemma viewIncidentStmt_row (row : IncidentRow) (db : Store) :
  NoDup (map i_id (incidents db)) -> In row (incidents db) ->
  exists rows, viewIncidentStmt (i_id row) db = row :: rows.
Proof.
  intros Hnd Hin.
  destruct (viewIncidentStmt_found (i_id row) db) as [row' [rows [Hv [Hin' Hid]]]].
  { now exists row. }
  exists rows. rewrite Hv. f_equal.
  exact (unique_key_row i_id (incidents db) row' row Hnd Hin' Hin Hid).
Qed.

Lemma listed_row (inc : Incident) (p : IncidentRow -> bool) (db : Store) :
  In inc (map incident_of_row (filter p (incidents db))) ->
  exists row, In row (incidents db) /\ inc = incident_of_row row.
Proof.
  intros H. apply in_map_iff in H. destruct H as [row [<- Hrow]].
  apply filter_In in Hrow. exists row. now split.
Qed.

(** X11. With ids unique, an incident that [IncidentsWithoutReview],
    [IncidentsInRadius], [IncidentsInRegion] or [AlertingIncidents] returns is
    the incident [ViewIncident] returns for its id, with the comments left
    out: the lists never carry comments, also for incidents that have some. *)
Theorem listed_as_viewed `{SortImpl}
    (distance : float64 -> float64 -> float64 -> float64 -> float64)
    (center : Coordinates) (radius : float64) (since : Time) (region : Region)
    (db : Store) (inc : Incident) :
  NoDup (map i_id (incidents db)) ->
  lists_incident inc (IncidentsWithoutReview db)
  \/ lists_incident inc (IncidentsInRadius distance center radius db)
  \/ lists_incident inc (IncidentsInRegion since region db)
  \/ lists_incident inc (AlertingIncidents since region db) ->
  exists viewed,
    ViewIncident (Id inc) db = (returned viewed, db)
    /\ inc = with_comments viewed [].
Proof.
  intros Hnd Hlisted.
  assert (Hrow : exists row, In row (incidents db) /\ inc = incident_of_row row).
  { unfold lists_incident in Hlisted.
    rewrite IncidentsWithoutReview_cases, IncidentsInRadius_cases, IncidentsInRegion_cases,
      AlertingIncidents_cases in Hlisted. cbn [fst] in Hlisted.
    destruct Hlisted as [[incs [[= <-] Hin]] | [[incs [[= <-] Hin]] |
                         [[incs [[= <-] Hin]] | [incs [[= <-] Hin]]]]].
    - exact (listed_row inc _ db Hin).
    - unfold incidentsInRadiusStmt in Hin. rewrite filter_filter_and in Hin.
      exact (listed_row inc _ db Hin).
    - exact (listed_row inc _ db Hin).
    - exact (listed_row inc _ db Hin). }
  destruct Hrow as [row [Hin ->]].
  change (Id (incident_of_row row)) with (i_id row).
  destruct (viewIncidentStmt_row row db Hnd Hin) as [rows Hv].
  rewrite ViewIncident_cases, Hv. eexists. split; reflexivity.
Qed.

Lemma listed_as_viewed_witness :
  exists viewed,
    @ViewIncident stable_sort "inc-1" three_comments = (returned viewed, three_comments)
    /\ incident_of_row (report_row "RESOLUTION_ACCEPTED") = with_comments viewed [].
Proof.
  apply (@listed_as_viewed stable_sort (fun _ _ _ _ => 0%float) centre 1%float 0 box
           three_comments (incident_of_row (report_row "RESOLUTION_ACCEPTED"))).
  - simpl. repeat constructor. simpl. tauto.
  - right. left. eexists. split; [reflexivity |]. now left.
Defined.

(** ** Authentication *)

Lemma strings_Split_not_nil (s : string) (sep : ascii) : strings_Split s sep <> [].
Proof.
  destruct s as [| c s]; cbn [strings_Split]; [discriminate |].
  destruct (Ascii.eqb c sep); [discriminate |].
  destruct (strings_Split s sep); discriminate.
Qed.

(** [strings.Join] undoes [strings.Split]. *)
Lemma strings_Join_Split (s : string) (sep : ascii) :
  strings_Join (strings_Split s sep) sep = s.
Proof.
  induction s as [| c s IH]; [reflexivity |]. cbn [strings_Split].
  pose proof (strings_Split_not_nil s sep) as Hne.
  destruct (Ascii.eqb_spec c sep) as [-> | Hc].
  - destruct (strings_Split s sep) as [| p ps]; [contradiction |].
    cbn [strings_Join] in *. cbn [append]. now rewrite IH.
  - destruct (strings_Split s sep) as [| p ps]; [contradiction |].
    cbn [strings_Join] in *. destruct ps as [| q qs].
    + now rewrite IH.
    + cbn [append]. now rewrite IH.
Qed.

Lemma strings_Split_parts (s : string) (sep : ascii) :
  Forall (fun part => contains_byte sep part = false) (strings_Split s sep).
Proof.
  induction s as [| c s IH]; cbn [strings_Split]; [now repeat constructor |].
  destruct (Ascii.eqb c sep) eqn:E; [now constructor |].
  destruct (strings_Split s sep) as [| p ps]; [now repeat constructor; cbn; rewrite E |].
  inversion IH as [| ? ? Hp Hps]; subst. constructor; [| exact Hps].
  cbn [contains_byte]. now rewrite E, Hp.
Qed.

Lemma strings_Split_whole (s : string) (sep : ascii) :
  contains_byte sep s = false -> strings_Split s sep = [s].
Proof.
  induction s as [| c s IH]; cbn [strings_Split contains_byte]; [reflexivity |].
  intros H. apply orb_false_iff in H. destruct H as [Hc Hs].
  now rewrite Hc, (IH Hs).
Qed.

Lemma strings_Split_app (a b : string) (sep : ascii) :
  contains_byte sep a = false ->
  strings_Split (a ++ String sep b)%string sep = a :: strings_Split b sep.
Proof.
  induction a as [| c a IH]; cbn [append strings_Split contains_byte].
  - intros _. now rewrite Ascii.eqb_refl.
  - intros H. apply orb_false_iff in H. destruct H as [Hc Ha].
    now rewrite Hc, (IH Ha).
Qed.

Lemma strings_Split_bearer (token : string) :
  contains_byte " " token = false ->
  strings_Split ("Bearer " ++ token)%string " " = ["Bearer"; token].
Proof.
  intros H. change ("Bearer " ++ token)%string with ("Bearer" ++ String " " token)%string.
  rewrite strings_Split_app by reflexivity. now rewrite strings_Split_whole.
Qed.

(** The two tests of [authenticated] pass exactly for "Bearer", a space and
    a token without a space. *)
Lemma bearer_of_Split (value a b : string) :
  strings_Split value " " = [a; b] -> a = "Bearer" -> bearer_of value b.
Proof.
  intros Hs ->. split.
  - rewrite <- (strings_Join_Split value " "), Hs. reflexivity.
  - pose proof (strings_Split_parts value " ") as Hp. rewrite Hs in Hp.
    inversion Hp as [| ? ? _ Hp']; subst. now inversion Hp'.
Qed.

Lemma authenticated_cases (now : Time) (cookie : option string) (db : Store) :
  (cookie = None /\ authenticated now cookie db = ((false, None), db))
  \/ (exists token,
        cookie = Some ("Bearer " ++ token)%string
        /\ contains_byte " " token = false
        /\ authenticated now cookie db =
             ((match fst (IsValidSession now token db) with
               | returned _ => true
               | _ => false
               end, None), db))
  \/ (exists value,
        cookie = Some value
        /\ (forall token, ~ bearer_of value token)
        /\ authenticated now cookie db = ((false, Some ErrBadFormat), db)).
Proof.
  destruct cookie as [value |]; [| left; now split].
  right. unfold authenticated.
  destruct (strings_Split value " ") as [| a [| b [| c rest]]] eqn:Hs.
  - right. exists value. repeat split; auto.
    intros token [-> Ht]. rewrite (strings_Split_bearer token Ht) in Hs. discriminate.
  - right. exists value. repeat split; auto.
    intros token [-> Ht]. rewrite (strings_Split_bearer token Ht) in Hs. discriminate.
  - cbn [List.length Nat.eqb negb nth].
    destruct (String.eqb_spec a "Bearer") as [Ha | Ha]; cbn [negb].
    + left. destruct (bearer_of_Split value a b Hs Ha) as [-> Hb].
      exists b. repeat split; auto.
      rewrite IsValidSession_cases. cbn [fst].
      now destruct (isValidSessionStmt b db) as [| e es]; [| destruct (now >? time_Unix e 0)].
    + right. exists value. repeat split; auto.
      intros token [-> Ht]. rewrite (strings_Split_bearer token Ht) in Hs.
      injection Hs as <- _. now apply Ha.
  - right. exists value. repeat split; auto.
    intros token [-> Ht]. rewrite (strings_Split_bearer token Ht) in Hs. discriminate.
Qed.

(** A well-formed cookie with a session that [IsValidSession] accepts. *)
Lemma index_serves (a : Auth) (now : Time) (token : string) (db : Store) :
  contains_byte " " token = false ->
  IsValidSession now token db = (returned tt, db) ->
  index a now (Some ("Bearer " ++ token)%string) db = (handler_ServeHTTP, db).
Proof.
  intros Hspace Hvalid. unfold index, authenticated.
  rewrite (strings_Split_bearer token Hspace).
  cbn [List.length Nat.eqb negb nth]. rewrite String.eqb_refl. cbn [negb].
  now rewrite Hvalid.
Qed.

(** X12. [index] never writes.  It hands the request to the wrapped handler
    exactly when the cookie is "Bearer", one space and a token without a space
    that [IsValidSession] accepts.  A cookie of any other shape is answered
    with 401.  A request without the cookie, or with a well-formed cookie
    whose token is unknown or expired, is redirected to the callback URL. *)
Theorem index_outcomes (a : Auth) (now : Time) (cookie : option string) (db : Store) :
  snd (index a now cookie db) = db
  /\ (fst (index a now cookie db) = handler_ServeHTTP <->
      exists token,
        cookie = Some ("Bearer " ++ token)%string
        /\ contains_byte " " token = false
        /\ fst (IsValidSession now token db) = returned tt)
  /\ (fst (index a now cookie db) =
        http_Error (text_of_error "unable to authenticate: " ErrBadFormat)
          http_StatusUnauthorized <->
      exists value, cookie = Some value /\ forall token, ~ bearer_of value token)
  /\ (fst (index a now cookie db) =
        http_Redirect None (callbackURL a) http_StatusTemporaryRedirect <->
      cookie = None
      \/ exists token,
           cookie = Some ("Bearer " ++ token)%string
           /\ contains_byte " " token = false
           /\ fst (IsValidSession now token db) <> returned tt).
Proof.
  unfold index.
  destruct (authenticated_cases now cookie db)
    as [[-> ->] | [[token [-> [Ht ->]]] | [value [-> [Hbad ->]]]]].
  - cbv beta iota zeta. cbn [fst snd]. split; [reflexivity |]. split; [| split].
    + split; [discriminate | intros [t [H _]]; discriminate H].
    + split; [discriminate | intros [v [H _]]; discriminate H].
    + split; [intros _; now left | reflexivity].
  - assert (Hinj : forall t, Some ("Bearer " ++ token)%string = Some ("Bearer " ++ t)%string ->
                             t = token).
    { intros t [= H]. now symmetry. }
    assert (Hwell : bearer_of ("Bearer " ++ token)%string token) by now split.
    destruct (fst (IsValidSession now token db)) as [[] | err |] eqn:E;
      cbv beta iota zeta; cbn [fst snd]; (split; [reflexivity |]); (split; [| split]).
    + split; [intros _; exists token; auto | reflexivity].
    + split; [discriminate |].
      intros [v [[= <-] Hbad]]. exfalso. exact (Hbad token Hwell).
    + split; [discriminate |].
      intros [H | [t [H [_ Hne]]]]; [discriminate H |].
      apply Hinj in H. subst t. now contradiction Hne.
    + split; [discriminate |].
      intros [t [H [_ Hok]]]. apply Hinj in H. subst t. congruence.
    + split; [discriminate |].
      intros [v [[= <-] Hbad]]. exfalso. exact (Hbad token Hwell).
    + split; [| reflexivity].
      intros _. right. exists token. repeat split; auto. congruence.
    + split; [discriminate |].
      intros [t [H [_ Hok]]]. apply Hinj in H. subst t. congruence.
    + split; [discriminate |].
      intros [v [[= <-] Hbad]]. exfalso. exact (Hbad token Hwell).
    + split; [| reflexivity].
      intros _. right. exists token. repeat split; auto. congruence.
  - cbv beta iota zeta. cbn [fst snd]. split; [reflexivity |]. split; [| split].
    + split; [discriminate |].
      intros [t [[= ->] [Ht _]]]. exfalso. apply (Hbad t). now split.
    + split; [| reflexivity]. intros _. now exists value.
    + split; [discriminate |].
      intros [H | [t [[= ->] [Ht _]]]]; [discriminate H |].
      exfalso. apply (Hbad t). now split.
Qed.

Lemma index_outcomes_witness :
  fst (index (Register "/review/" (mkConfig "https://safer.place" "id" "secret")) 0
         (Some "Bearer tok") (mkStore [] [] [mkSessionRow "tok" 3601])) = handler_ServeHTTP
  /\ fst (index (Register "/review/" (mkConfig "https://safer.place" "id" "secret")) 0
            (Some "Token tok") (mkStore [] [] [mkSessionRow "tok" 3601])) =
       http_Error (text_of_error "unable to authenticate: " ErrBadFormat)
         http_StatusUnauthorized.
Proof.
  split.
  - apply (proj1 (proj2 (index_outcomes
             (Register "/review/" (mkConfig "https://safer.place" "id" "secret")) 0
             (Some "Bearer tok") (mkStore [] [] [mkSessionRow "tok" 3601])))).
    exists "tok". repeat split.
  - apply (proj1 (proj2 (proj2 (index_outcomes
             (Register "/review/" (mkConfig "https://safer.place" "id" "secret")) 0
             (Some "Token tok") (mkStore [] [] [mkSessionRow "tok" 3601]))))).
    exists "Token tok". split; [reflexivity |].
    intros token [H _]. discriminate H.
Defined.

(** The fields [callback] posts to GitHub. *)
Lemma callback_cases (github : list (string * string) -> error + string) (a : Auth)
    (now : Time) (code : string) (db : Store) :
  callback github a now code db =
    if String.eqb code "" then (http_Error (text "missing code") http_StatusBadRequest, db)
    else
      match github [ ("client_id", ClientID (cfg a));
                     ("client_secret", ClientSecret (cfg a));
                     ("code", code) ] with
      | inl err => (http_Error (text_of_error "" err) http_StatusUnauthorized, db)
      | inr token =>
          if has_key s_id token (sessions db)
          then (http_Error
                  (text_of_error ""
                     (fmt_Errorf "unable to save session" (driver_ErrConstraint "sessions")))
                  http_StatusUnauthorized, db)
          else (http_Redirect
                  (Some (mkCookie "Authorization" ("Bearer " ++ token) 3600 true "/"
                           SameSiteLaxMode))
                  (prefix a) http_StatusTemporaryRedirect,
                mkStore (incidents db) (comments db)
                  (sessions db ++ [mkSessionRow token (Time_Unix now + 3600)]))
      end.
Proof.
  unfold callback. destruct (String.eqb code ""); [reflexivity |].
  destruct (github _) as [err | token]; [reflexivity |].
  rewrite SaveSession_cases. now destruct (has_key s_id token (sessions db)).
Qed.

(** X13. Signing in, then coming back.  When the code is not empty, GitHub
    answers with a token that has no space and no session row has yet, then
    [callback] stores the session, sets the cookie "Authorization" to
    "Bearer", a space and the token for 3600 seconds, and redirects to the
    prefix; and [index], given that cookie value at any clock reading up to
    3599 seconds later, hands the request to the wrapped handler.  The token
    may be empty: [callback] does not look at it. *)
Theorem sign_in_then_index (github : list (string * string) -> error + string) (a : Auth)
    (now now' : Time) (code token : string) (db : Store) :
  code <> "" ->
  github [ ("client_id", ClientID (cfg a));
           ("client_secret", ClientSecret (cfg a));
           ("code", code) ] = inr token ->
  contains_byte " " token = false ->
  ~ In token (map s_id (sessions db)) ->
  now' <= now + 3599 * time_Second ->
  exists cookie db',
    callback github a now code db =
      (http_Redirect (Some cookie) (prefix a) http_StatusTemporaryRedirect, db')
    /\ cookie = mkCookie "Authorization" ("Bearer " ++ token) 3600 true "/" SameSiteLaxMode
    /\ index a now' (Some (Cookie_Value cookie)) db' = (handler_ServeHTTP, db').
Proof.
  intros Hcode Hgithub Hspace Hnew Hsoon.
  rewrite callback_cases, Hgithub.
  destruct (String.eqb_spec code "") as [-> | _]; [now contradiction Hcode |].
  destruct (has_key s_id token (sessions db)) eqn:E.
  { apply has_key_map in E. contradiction. }
  eexists _, _. split; [reflexivity |]. split; [reflexivity |].
  cbn [Cookie_Value]. apply index_serves; [exact Hspace |].
  exact (proj1 (session_window now now' token db Hnew) Hsoon).
Qed.

Lemma sign_in_then_index_witness :
  exists cookie db',
    callback (fun _ => inr "")
      (Register "/review/" (mkConfig "https://safer.place" "id" "secret"))
      0 "rejected-by-github" (mkStore [] [] []) =
      (http_Redirect (Some cookie) "/review/" http_StatusTemporaryRedirect, db')
    /\ cookie = mkCookie "Authorization" "Bearer " 3600 true "/" SameSiteLaxMode
    /\ index (Register "/review/" (mkConfig "https://safer.place" "id" "secret"))
         (3599 * time_Second) (Some (Cookie_Value cookie)) db' = (handler_ServeHTTP, db').
Proof.
  apply (sign_in_then_index (fun _ => inr "")
           (Register "/review/" (mkConfig "https://safer.place" "id" "secret"))
           0 (3599 * time_Second) "rejected-by-github" "" (mkStore [] [] [])).
  - discriminate.
  - reflexivity.
  - reflexivity.
  - intros [].
  - reflexivity.
Defined.

(** X14. When [callback] refuses.  An empty code is answered with 400
    "missing code", whatever GitHub would say.  A failed exchange is answered
    with 401 and the error's text.  A token that a session row already has is
    answered with 401 as well, expired or not: rows are never deleted, so the
    same token cannot sign in twice.  In all three cases nothing is written;
    and whenever [callback] does write, it is one session row, for the token
    GitHub gave, and the answer is the redirect with the cookie. *)
Theorem callback_refusals (github : list (string * string) -> error + string) (a : Auth)
    (now : Time) (code : string) (db : Store) :
  (code = "" ->
   callback github a now code db =
     (http_Error (text "missing code") http_StatusBadRequest, db))
  /\ (forall err,
        code <> "" ->
        github [ ("client_id", ClientID (cfg a));
                 ("client_secret", ClientSecret (cfg a));
                 ("code", code) ] = inl err ->
        callback github a now code db =
          (http_Error (text_of_error "" err) http_StatusUnauthorized, db))
  /\ (forall token,
        code <> "" ->
        github [ ("client_id", ClientID (cfg a));
                 ("client_secret", ClientSecret (cfg a));
                 ("code", code) ] = inr token ->
        In token (map s_id (sessions db)) ->
        exists err,
          callback github a now code db =
            (http_Error (text_of_error "" err) http_StatusUnauthorized, db))
  /\ (snd (callback github a now code db) <> db ->
      exists token,
        github [ ("client_id", ClientID (cfg a));
                 ("client_secret", ClientSecret (cfg a));
                 ("code", code) ] = inr token
        /\ snd (callback github a now code db) =
             mkStore (incidents db) (comments db)
               (sessions db ++ [mkSessionRow token (Time_Unix now + 3600)])
        /\ fst (callback github a now code db) =
             http_Redirect
               (Some (mkCookie "Authorization" ("Bearer " ++ token) 3600 true "/"
                        SameSiteLaxMode))
               (prefix a) http_StatusTemporaryRedirect).
Proof.
  rewrite callback_cases. split; [| split; [| split]].
  - intros ->. reflexivity.
  - intros err Hcode ->. now destruct (String.eqb_spec code "").
  - intros token Hcode -> Hin. apply has_key_map in Hin. rewrite Hin.
    destruct (String.eqb_spec code ""); [contradiction |]. eexists. reflexivity.
  - destruct (String.eqb code ""); [intros H; now contradiction H |].
    destruct (github _) as [err | token]; [intros H; now contradiction H |].
    destruct (has_key s_id token (sessions db)); [intros H; now contradiction H |].
    intros _. exists token. repeat split.
Qed.

(** ** The way back from GitHub *)

Lemma append_empty_r (s : string) : (s ++ "")%string = s.
Proof. induction s as [| a s IH]; cbn [append]; [reflexivity | now rewrite IH]. Qed.

Lemma append_assoc (a b c : string) : ((a ++ b) ++ c)%string = (a ++ (b ++ c))%string.
Proof. induction a as [| x a IH]; cbn [append]; [reflexivity | now rewrite IH]. Qed.

Lemma append_cancel_l (a b c : string) : (a ++ b)%string = (a ++ c)%string -> b = c.
Proof.
  induction a as [| x a IH]; cbn [append]; [auto |]. intros [= H]. now apply IH.
Qed.

Lemma length_append (a b : string) :
  String.length (a ++ b) = (String.length a + String.length b)%nat.
Proof. induction a as [| x a IH]; cbn [append String.length]; [reflexivity | now rewrite IH]. Qed.

(** What [strings.TrimRight] takes off is slashes. *)
Lemma strings_TrimRight_slashes (s : string) :
  exists k, s = (strings_TrimRight s "/" ++ slashes k)%string
            /\ (strings_TrimRight s "/" = "" -> s = slashes k).
Proof.
  induction s as [| a s [k [IH IH0]]]; cbn [strings_TrimRight].
  - exists O. now split.
  - destruct (strings_TrimRight s "/") as [| b rest] eqn:E.
    + destruct (Ascii.eqb_spec a "/") as [-> | Ha].
      * exists (S k). rewrite (IH0 eq_refl). now split.
      * exists k. rewrite (IH0 eq_refl). split; [reflexivity | discriminate].
    + exists k. cbn [append] in *. split; [now f_equal | discriminate].
Qed.

Lemma strings_CutPrefix_append (prefix rest : string) :
  strings_CutPrefix (prefix ++ rest) prefix = Some rest.
Proof.
  induction prefix as [| a prefix IH]; cbn [append strings_CutPrefix].
  - now destruct rest.
  - now rewrite Ascii.eqb_refl.
Qed.

Lemma http_StripPrefix_append (prefix rest : string) :
  http_StripPrefix prefix (prefix ++ rest) = Some rest.
Proof.
  unfold http_StripPrefix, strings_TrimPrefix.
  destruct prefix as [| a prefix]; [reflexivity |].
  change (String.eqb (String a prefix) "") with false. cbv iota.
  rewrite strings_CutPrefix_append, length_append.
  cbn [String.length]. destruct (Nat.ltb_spec (String.length rest)
                                   (S (String.length prefix) + String.length rest)); [reflexivity | lia].
Qed.

Lemma slashes_callback (k : nat) :
  String.eqb (slashes k ++ "oauth/callback") "/oauth/callback" = Nat.eqb k 1.
Proof. destruct k as [| [| k]]; reflexivity. Qed.

(** X15. After the sign-in GitHub sends the browser to the [redirect_uri]
    that [Register] has put into [callbackURL].  The handler [Register]
    returns hands that path to [callback] exactly when the prefix ends in
    one slash and no more: with a prefix that ends otherwise the way back
    from GitHub does not reach [callback]. *)
Theorem redirect_uri_served_by_callback (prefix : string) :
  served_by_callback prefix (redirect_path prefix) = true <->
  prefix = (strings_TrimRight prefix "/" ++ "/")%string.
Proof.
  unfold served_by_callback, redirect_path.
  destruct (strings_TrimRight_slashes prefix) as [k [Hk _]].
  set (trimmed := strings_TrimRight prefix "/") in *.
  rewrite Hk at 1. rewrite append_assoc, http_StripPrefix_append, slashes_callback.
  rewrite Nat.eqb_eq. split.
  - intros ->. exact Hk.
  - intros H. rewrite H in Hk at 1. apply append_cancel_l in Hk.
    destruct k as [| [| k]]; [discriminate Hk | reflexivity | discriminate Hk].
Qed.

(** ** Wiring *)

Lemma dependenciesToStrings_from (res dependencies : list Dependency) :
  fold_left (fun res dependency => res ++ [dependency]) dependencies res =
  res ++ dependencies.
Proof.
  revert res. induction dependencies as [| d ds IH]; intros res; cbn [fold_left].
  - now rewrite app_nil_r.
  - rewrite IH, <- app_assoc. reflexivity.
Qed.

Lemma known_dependency_dec (s : string) :
  {known_dependency s} + {~ known_dependency s}.
Proof.
  unfold known_dependency.
  destruct (string_dec s "database"); [left; tauto |].
  destruct (string_dec s "queue"); [left; tauto |].
  destruct (string_dec s "storage"); [left; tauto |].
  destruct (string_dec s "notifier"); [left; tauto |].
  right. tauto.
Qed.

Lemma StringsToDependencies_step (res : list Dependency) (s : string) (ss : list string) :
  StringsToDependencies_from res (s :: ss) =
    if known_dependency_dec s then StringsToDependencies_from (res ++ [s]) ss else panicked.
Proof.
  cbn [StringsToDependencies_from].
  unfold DatabaseDependency, QueueDependency, StorageDependency, NotifierDependency.
  destruct (known_dependency_dec s) as [[-> | [-> | [-> | ->]]] | Hno]; try reflexivity.
  unfold known_dependency in Hno.
  destruct (String.eqb_spec s "database"); [tauto |].
  destruct (String.eqb_spec s "queue"); [tauto |].
  destruct (String.eqb_spec s "storage"); [tauto |].
  destruct (String.eqb_spec s "notifier"); [tauto |].
  reflexivity.
Qed.

Lemma StringsToDependencies_from_cases (res : list Dependency) (ss : list string) :
  (Forall known_dependency ss /\ StringsToDependencies_from res ss = returned (res ++ ss))
  \/ (Exists (fun s => ~ known_dependency s) ss
      /\ StringsToDependencies_from res ss = panicked).
Proof.
  revert res. induction ss as [| s ss IH]; intros res.
  - left. cbn [StringsToDependencies_from]. now rewrite app_nil_r.
  - rewrite StringsToDependencies_step.
    destruct (known_dependency_dec s) as [Hs | Hs].
    + destruct (IH (res ++ [s])) as [[Hall ->] | [Hex ->]].
      * left. split; [now constructor |]. now rewrite <- app_assoc.
      * right. split; [now apply Exists_cons_tl | reflexivity].
    + right. split; [now apply Exists_cons_hd | reflexivity].
Qed.

(** X16. [StringsToDependencies] returns its input, name for name and in the
    same order, exactly when every string is one of "database", "queue",
    "storage" and "notifier" (repetitions are kept); it panics exactly when
    some string is anything else.  [dependenciesToStrings] leads back from
    whatever it returns to the strings given. *)
Theorem StringsToDependencies_round_trip (ss : list string) :
  (StringsToDependencies ss = returned ss <-> Forall known_dependency ss)
  /\ (StringsToDependencies ss = panicked <->
      Exists (fun s => ~ known_dependency s) ss)
  /\ (forall dependencies,
        StringsToDependencies ss = returned dependencies ->
        dependenciesToStrings dependencies = ss).
Proof.
  unfold StringsToDependencies, dependenciesToStrings.
  destruct (StringsToDependencies_from_cases [] ss) as [[Hall ->] | [Hex ->]];
    cbn [app].
  - split; [| split].
    + split; auto.
    + split; [discriminate |]. intros Hex. apply Exists_exists in Hex.
      destruct Hex as [s [Hin Hno]]. rewrite Forall_forall in Hall.
      exfalso. exact (Hno (Hall s Hin)).
    + intros dependencies [= <-]. now rewrite dependenciesToStrings_from.
  - split; [| split].
    + split; [discriminate |]. intros Hall. apply Exists_exists in Hex.
      destruct Hex as [s [Hin Hno]]. rewrite Forall_forall in Hall.
      exfalso. exact (Hno (Hall s Hin)).
    + split; auto.
    + discriminate.
Qed.

Section CloserProofs.

Variable World : Type.

Lemma multiCloser_Close_from (mc : list (Closer World)) (err : option joined) (w : World) :
  fold_left
    (fun '(err, w) c =>
       let '(e, w') := (c : Closer World) w in
       (errors_Join err (option_map plain e), w'))
    mc (err, w) =
  (joined_so_far err (fst (closed_in_turn World mc w)), snd (closed_in_turn World mc w)).
Proof.
  revert err w. induction mc as [| c mc IH]; intros err w; [reflexivity |].
  cbn [fold_left closed_in_turn]. destruct (c w) as [e w'].
  rewrite IH. now destruct (closed_in_turn World mc w') as [es w''].
Qed.

Lemma joined_so_far_nil (err : option joined) (es : list (option error)) :
  joined_so_far err es = None <-> err = None /\ Forall (fun e => e = None) es.
Proof.
  revert err. induction es as [| e es IH]; intros err; cbn [joined_so_far fold_left].
  - split; [now split | now intros [-> _]].
  - fold (joined_so_far (errors_Join err (option_map plain e)) es). rewrite IH.
    split.
    + intros [Hj Hall]. destruct err, e; try discriminate Hj. now split; [| constructor].
    + intros [-> Hall]. inversion Hall as [| ? ? -> Hes]; subst. now split.
Qed.

Lemma joined_so_far_Is (err : option joined) (es : list (option error)) (target : error) :
  option_joined_Is (joined_so_far err es) target =
  option_joined_Is err target || existsb (option_error_Is target) es.
Proof.
  revert err. induction es as [| e es IH]; intros err; cbn [joined_so_far fold_left existsb].
  - now rewrite orb_false_r.
  - fold (joined_so_far (errors_Join err (option_map plain e)) es). rewrite IH.
    rewrite orb_assoc. f_equal.
    destruct err as [x |], e as [y |];
      cbn [errors_Join option_map option_joined_Is option_error_Is joined_Is existsb];
      now rewrite ?orb_false_r.
Qed.

(** X17. [multiCloser.Close] calls every closer, in the order of the slice,
    also after one of them has failed: the world it leaves is the one the
    closers leave when run in turn.  It returns nil exactly when every closer
    returned nil; and [errors.Is] finds a target in what it returns exactly
    when it finds the target in the error of one of the closers. *)
Theorem multiCloser_Close_joins (mc : list (Closer World)) (w : World) :
  snd (multiCloser_Close World mc w) = snd (closed_in_turn World mc w)
  /\ (fst (multiCloser_Close World mc w) = None <->
      Forall (fun e => e = None) (fst (closed_in_turn World mc w)))
  /\ (forall target,
        option_joined_Is (fst (multiCloser_Close World mc w)) target =
        existsb (option_error_Is target) (fst (closed_in_turn World mc w))).
Proof.
  unfold multiCloser_Close. rewrite multiCloser_Close_from. cbn [fst snd].
  split; [reflexivity |]. split.
  - rewrite joined_so_far_nil. split; [now intros [_ H] | now split].
  - intros target. now rewrite joined_so_far_Is.
Qed.

End CloserProofs.

Section MiddlewareProofs.

Variable Handler : Type.

Lemma ServiceMiddleware_from (middlewares : list (Middleware Handler))
    (services wrapped : list (Service Handler)) :
  fold_left
    (fun wrapped service =>
       let '(path, handler) := (service : Service Handler) tt in
       let handler := fold_left (fun handler middleware => middleware handler)
                        middlewares handler in
       wrapped ++ [fun _ => (path, handler)])
    services wrapped =
  wrapped ++ map (fun service => fun _ : unit =>
                    (fst (service tt), wrap middlewares (snd (service tt)))) services.
Proof.
  revert wrapped. induction services as [| s ss IH]; intros wrapped; cbn [fold_left map].
  - now rewrite app_nil_r.
  - rewrite IH. destruct (s tt) as [path handler]. cbn [fst snd].
    now rewrite <- app_assoc.
Qed.

Lemma ServiceMiddleware_map (middlewares : list (Middleware Handler))
    (services : list (Service Handler)) :
  ServiceMiddleware Handler middlewares services =
  map (fun service => fun _ : unit =>
         (fst (service tt), wrap middlewares (snd (service tt)))) services.
Proof. unfold ServiceMiddleware. now rewrite ServiceMiddleware_from. Qed.

(** X18. [ServiceMiddleware] keeps the services' number, order and paths, and
    wraps each handler with the middlewares from the first to the last, so
    the last one of the slice is the outermost.  Wrapping with two slices one
    after the other is wrapping with their concatenation. *)
Theorem ServiceMiddleware_wraps (ms1 ms2 : list (Middleware Handler))
    (services : list (Service Handler)) :
  map (fun service : Service Handler => fst (service tt))
      (ServiceMiddleware Handler ms1 services) =
    map (fun service : Service Handler => fst (service tt)) services
  /\ map (fun service : Service Handler => snd (service tt))
         (ServiceMiddleware Handler ms1 services) =
       map (fun service : Service Handler => wrap ms1 (snd (service tt))) services
  /\ (forall (m : Middleware Handler) (handler : Handler),
        wrap (ms1 ++ [m]) handler = m (wrap ms1 handler))
  /\ ServiceMiddleware Handler ms2 (ServiceMiddleware Handler ms1 services) =
       ServiceMiddleware Handler (ms1 ++ ms2) services.
Proof.
  rewrite !ServiceMiddleware_map. rewrite !map_map. cbn [fst snd].
  split; [reflexivity |]. split; [reflexivity |]. split.
  - intros m handler. unfold wrap. now rewrite fold_left_app.
  - apply map_ext. intros s. unfold wrap. now rewrite fold_left_app.
Qed.

End MiddlewareProofs.

(** ** Creating the dependencies *)

Section CreateDependenciesProofs.

Context `{Constructors}.

Variable cfg : config_Config.
Variable wantedDependencies : list Dependency.

Ltac register_outcomes :=
  repeat match goal with
    | Hyp : failed _ = returned _ |- _ => discriminate Hyp
    | Hyp : panicked = returned _ |- _ => discriminate Hyp
    | Hyp : returned _ = failed _ |- _ => discriminate Hyp
    | Hyp : inl _ = inr _ |- _ => discriminate Hyp
    | Hyp : inr _ = inl _ |- _ => discriminate Hyp
    | Hyp : returned _ = returned _ |- _ => injection Hyp as <-
    | Hyp : failed _ = failed _ |- _ => injection Hyp as <-
    | Hyp : context [if ?b then _ else _] |- _ => destruct b eqn:?
    | Hyp : context [match ?x with inl _ => _ | inr _ => _ end] |- _ => destruct x eqn:?
    | Hyp : context [match tracing ?d with Some _ => _ | None => _ end] |- _ =>
        destruct (tracing d) eqn:?
    | |- context [if ?b then _ else _] => destruct b eqn:?
    | |- context [match ?x with inl _ => _ | inr _ => _ end] => destruct x eqn:?
    end.

Ltac registry_entry Hin :=
  unfold registry in Hin; cbn [In] in Hin;
  destruct Hin as [<- | [<- | [<- | [<- | []]]]].

(** Whether a registration fails, and with what, does not hang on the
    dependencies set before it; it keeps [tracing]; and it does not panic
    when [tracing] is set. *)
Lemma registration_outcome (entry : Dependency * registerDependencyFn)
    (tracer : trace_TracerProvider) (deps : dependencies) :
  In entry registry -> tracing deps = Some tracer ->
  match register_error tracer cfg entry with
  | Some err => snd entry cfg deps = failed err
  | None => exists deps', snd entry cfg deps = returned deps'
                          /\ tracing deps' = Some tracer
  end.
Proof.
  intros Hin Htr. unfold register_error. registry_entry Hin; cbn [snd];
    unfold registerDatabase, registerQueue, registerStorage, registerNotifier;
    cbv beta zeta; cbn [tracing]; rewrite ?Htr;
    register_outcomes; try reflexivity; try congruence; eexists; split; reflexivity || exact Htr.
Qed.

(** Two registrations that both succeed can change places. *)
Lemma registrations_commute (x y : Dependency * registerDependencyFn)
    (tracer : trace_TracerProvider) (deps d1 d2 : dependencies) :
  In x registry -> In y registry -> tracing deps = Some tracer ->
  snd y cfg deps = returned d1 -> snd x cfg d1 = returned d2 ->
  exists d1', snd x cfg deps = returned d1' /\ snd y cfg d1' = returned d2.
Proof.
  intros Hx Hy Htr. registry_entry Hx; registry_entry Hy; cbn [snd];
    unfold registerDatabase, registerQueue, registerStorage, registerNotifier;
    cbv beta zeta; cbn [tracing]; rewrite ?Htr; intros H1 H2;
    register_outcomes; cbn [tracing database queue storage notifer] in *;
    rewrite ?Htr in *; register_outcomes; try (exfalso; congruence);
    eexists; (split; [reflexivity |]); cbn [tracing database queue storage notifer];
    rewrite ?Htr; register_outcomes; try reflexivity; congruence.
Qed.

Lemma register_each_step (entry : Dependency * registerDependencyFn)
    (entries : list (Dependency * registerDependencyFn)) (deps : dependencies) :
  register_each (entry :: entries) wantedDependencies cfg deps =
    if slices_Contains wantedDependencies (fst entry) then
      match snd entry cfg deps with
      | returned deps' => register_each entries wantedDependencies cfg deps'
      | failed err => returned (deps, Some err)
      | panicked => panicked
      end
    else register_each entries wantedDependencies cfg deps.
Proof. now destruct entry. Qed.

(** A run of the loop that ends without an error ends in the same
    dependencies in every order of the entries. *)
Lemma register_each_any_order (l1 l2 : list (Dependency * registerDependencyFn)) :
  Permutation l1 l2 ->
  Forall (fun entry => In entry registry) l1 ->
  forall (tracer : trace_TracerProvider) (deps done : dependencies),
    tracing deps = Some tracer ->
    register_each l1 wantedDependencies cfg deps = returned (done, None) ->
    register_each l2 wantedDependencies cfg deps = returned (done, None).
Proof.
  induction 1 as [| x l l' Hperm IH | x y l | l l' l'' Hp1 IH1 Hp2 IH2];
    intros Hall tracer deps done Htr Hrun.
  - exact Hrun.
  - inversion Hall as [| ? ? Hx Hl]; subst.
    rewrite register_each_step in *.
    destruct (slices_Contains wantedDependencies (fst x)); [| now apply (IH Hl tracer)].
    pose proof (registration_outcome x tracer deps Hx Htr) as Hout.
    destruct (register_error tracer cfg x) as [err |].
    + rewrite Hout in Hrun. discriminate Hrun.
    + destruct Hout as [deps' [Hx' Htr']]. rewrite Hx' in *. now apply (IH Hl tracer).
  - inversion Hall as [| ? ? Hy Hl]; subst. inversion Hl as [| ? ? Hx Hl']; subst.
    rewrite register_each_step in Hrun. rewrite register_each_step.
    destruct (slices_Contains wantedDependencies (fst y)) eqn:Ewy,
             (slices_Contains wantedDependencies (fst x)) eqn:Ewx.
    + destruct (snd y cfg deps) as [d1 | |] eqn:Ey; try discriminate Hrun.
      rewrite register_each_step, Ewx in Hrun.
      destruct (snd x cfg d1) as [d2 | |] eqn:Ex; try discriminate Hrun.
      destruct (registrations_commute x y tracer deps d1 d2 Hx Hy Htr Ey Ex)
        as [d1' [Ex' Ey']].
      rewrite Ex', register_each_step, Ewy, Ey'. exact Hrun.
    + destruct (snd y cfg deps) as [d1 | |] eqn:Ey; try discriminate Hrun.
      rewrite register_each_step, Ewx in Hrun.
      rewrite register_each_step, Ewy, Ey. exact Hrun.
    + rewrite register_each_step, Ewx in Hrun.
      destruct (snd x cfg deps) as [d1 | |] eqn:Ex; try discriminate Hrun.
      rewrite register_each_step, Ewy. exact Hrun.
    + rewrite register_each_step, Ewx in Hrun.
      rewrite register_each_step, Ewy. exact Hrun.
  - apply (IH2 (Permutation_Forall Hp1 Hall) tracer deps done Htr).
    now apply (IH1 Hall tracer).
Qed.

(** The loop does not panic when [tracing] is set. *)
Lemma register_each_returns (entries : list (Dependency * registerDependencyFn)) :
  Forall (fun entry => In entry registry) entries ->
  forall (tracer : trace_TracerProvider) (deps : dependencies),
    tracing deps = Some tracer ->
    exists done err, register_each entries wantedDependencies cfg deps = returned (done, err).
Proof.
  induction 1 as [| x l Hx Hl IH]; intros tracer deps Htr.
  - now exists deps, None.
  - rewrite register_each_step.
    destruct (slices_Contains wantedDependencies (fst x)); [| now apply (IH tracer)].
    pose proof (registration_outcome x tracer deps Hx Htr) as Hout.
    destruct (register_error tracer cfg x) as [err |].
    + rewrite Hout. now exists deps, (Some err).
    + destruct Hout as [deps' [-> Htr']]. now apply (IH tracer).
Qed.

(** The loop sets no dependency that is not wanted. *)
Lemma register_each_wanted_only (entries : list (Dependency * registerDependencyFn)) :
  Forall (fun entry => In entry registry) entries ->
  forall (deps done : dependencies) (err : option error),
    register_each entries wantedDependencies cfg deps = returned (done, err) ->
    (slices_Contains wantedDependencies DatabaseDependency = false ->
     database done = database deps)
    /\ (slices_Contains wantedDependencies QueueDependency = false ->
        queue done = queue deps)
    /\ (slices_Contains wantedDependencies StorageDependency = false ->
        storage done = storage deps)
    /\ (slices_Contains wantedDependencies NotifierDependency = false ->
        notifer done = notifer deps).
Proof.
  induction 1 as [| x l Hx Hl IH]; intros deps done err Hrun.
  - injection Hrun as <- <-. repeat split; reflexivity.
  - rewrite register_each_step in Hrun.
    destruct (slices_Contains wantedDependencies (fst x)) eqn:Ew; [| now apply (IH deps done err)].
    destruct (snd x cfg deps) as [d1 | e |] eqn:Ex; try discriminate Hrun.
    + specialize (IH d1 done err Hrun). destruct IH as [Hd [Hq [Hs Hn]]].
      registry_entry Hx; cbn [fst snd] in *;
        unfold registerDatabase, registerQueue, registerStorage, registerNotifier in Ex;
        cbv beta zeta in Ex; register_outcomes;
        cbn [database queue storage notifer] in *;
        (split; [| split; [| split]]); intros Hno; auto; congruence.
    + injection Hrun as <- <-. repeat split; reflexivity.
Qed.

Lemma registry_entries (entries : list (Dependency * registerDependencyFn)) :
  Permutation registry entries -> Forall (fun entry => In entry registry) entries.
Proof.
  intros Hperm. apply Forall_forall. intros entry Hin.
  exact (Permutation_in entry (Permutation_sym Hperm) Hin).
Qed.

(** X19. Go ranges over the map of the four registrations in an order of
    its own choosing.  In every order [createDependencies] returns, with the
    same closers; whether it returns an error does not hang on the order, and
    without an error neither do the dependencies it returns.  A dependency
    that is not wanted is left nil in what it returns. *)
Theorem createDependencies_any_order
    (entries1 entries2 : list (Dependency * registerDependencyFn)) :
  Permutation registry entries1 -> Permutation registry entries2 ->
  exists deps1 deps2 mc err1 err2,
    createDependencies entries1 cfg wantedDependencies = returned (deps1, mc, err1)
    /\ createDependencies entries2 cfg wantedDependencies = returned (deps2, mc, err2)
    /\ (err1 = None <-> err2 = None)
    /\ (err1 = None -> deps1 = deps2)
    /\ (forall deps,
          deps1 = Some deps ->
          (slices_Contains wantedDependencies DatabaseDependency = false ->
           database deps = None)
          /\ (slices_Contains wantedDependencies QueueDependency = false ->
              queue deps = None)
          /\ (slices_Contains wantedDependencies StorageDependency = false ->
              storage deps = None)
          /\ (slices_Contains wantedDependencies NotifierDependency = false ->
              notifer deps = None)).
Proof.
  intros Hp1 Hp2. unfold createDependencies.
  destruct tracing_NewTracingProvider as [err | [tracer tracingCloser]].
  - eexists _, _, _, _, _. split; [reflexivity |]. split; [reflexivity |].
    split; [split; discriminate |]. split; [discriminate |]. discriminate.
  - cbn [database queue storage notifer].
    set (deps0 := mkDependencies (Some tracer) None None None None).
    pose proof (registry_entries entries1 Hp1) as Hall1.
    pose proof (registry_entries entries2 Hp2) as Hall2.
    destruct (register_each_returns entries1 Hall1 tracer deps0 eq_refl)
      as [done1 [err1 Hrun1]].
    destruct (register_each_returns entries2 Hall2 tracer deps0 eq_refl)
      as [done2 [err2 Hrun2]].
    assert (H12 : Permutation entries1 entries2)
      by exact (Permutation_trans (Permutation_sym Hp1) Hp2).
    assert (Hsame : err1 = None -> err2 = None /\ done1 = done2).
    { intros ->.
      pose proof (register_each_any_order entries1 entries2 H12 Hall1 tracer deps0 done1
                    eq_refl Hrun1) as Hrun2'.
      rewrite Hrun2 in Hrun2'. injection Hrun2' as -> ->. now split. }
    assert (Hback : err2 = None -> err1 = None).
    { intros ->.
      pose proof (register_each_any_order entries2 entries1 (Permutation_sym H12) Hall2
                    tracer deps0 done2 eq_refl Hrun2) as Hrun1'.
      rewrite Hrun1 in Hrun1'. now injection Hrun1' as _ ->. }
    rewrite Hrun1, Hrun2. eexists _, _, _, _, _.
    split; [reflexivity |]. split; [reflexivity |].
    split; [split; [now intros E; apply Hsame in E | exact Hback] |].
    split; [intros E; apply Hsame in E; now destruct E as [_ ->] |].
    intros deps [= <-].
    exact (register_each_wanted_only entries1 Hall1 deps0 done1 err1 Hrun1).
Qed.

(** The error of the first wanted registration that fails is the one that
    comes back. *)
Lemma register_each_first_failure (before after : list (Dependency * registerDependencyFn))
    (entry : Dependency * registerDependencyFn) (tracer : trace_TracerProvider)
    (err : error) :
  Forall (fun e => In e registry) before -> In entry registry ->
  Forall (fun e => slices_Contains wantedDependencies (fst e) = true ->
                   register_error tracer cfg e = None) before ->
  slices_Contains wantedDependencies (fst entry) = true ->
  register_error tracer cfg entry = Some err ->
  forall deps, tracing deps = Some tracer ->
    exists done,
      register_each (before ++ entry :: after) wantedDependencies cfg deps =
        returned (done, Some err).
Proof.
  intros Hall Hentry Hfine Hwanted Herr.
  induction before as [| x before IH]; intros deps Htr; cbn [app];
    rewrite register_each_step.
  - rewrite Hwanted.
    pose proof (registration_outcome entry tracer deps Hentry Htr) as Hout.
    rewrite Herr in Hout. rewrite Hout. now exists deps.
  - inversion Hall as [| ? ? Hx Hall']; subst.
    inversion Hfine as [| ? ? Hxfine Hfine']; subst.
    destruct (slices_Contains wantedDependencies (fst x)); [| now apply IH].
    pose proof (registration_outcome x tracer deps Hx Htr) as Hout.
    rewrite (Hxfine eq_refl) in Hout. destruct Hout as [deps' [-> Htr']].
    now apply IH.
Qed.

(** X20. When the registrations of two wanted dependencies fail, which of
    the two errors [createDependencies] returns is left to the order of the
    map's [range]: for each of them there is an order in which that one comes
    back. *)
Theorem createDependencies_either_error (x y : Dependency * registerDependencyFn)
    (tracer : trace_TracerProvider) (tracingCloser : io_Closer) (errx erry : error) :
  tracing_NewTracingProvider = inr (tracer, tracingCloser) ->
  In x registry -> In y registry ->
  slices_Contains wantedDependencies (fst x) = true ->
  slices_Contains wantedDependencies (fst y) = true ->
  register_error tracer cfg x = Some errx ->
  register_error tracer cfg y = Some erry ->
  exists entries1 entries2,
    Permutation registry entries1 /\ Permutation registry entries2
    /\ (exists deps,
          createDependencies entries1 cfg wantedDependencies =
            returned (Some deps, [logger_Sync; tracingCloser], Some errx))
    /\ (exists deps,
          createDependencies entries2 cfg wantedDependencies =
            returned (Some deps, [logger_Sync; tracingCloser], Some erry)).
Proof.
  intros Htracing Hx Hy Hwx Hwy Hex Hey.
  destruct (in_split x registry Hx) as [lx1 [lx2 Ex]].
  destruct (in_split y registry Hy) as [ly1 [ly2 Ey]].
  exists (x :: lx1 ++ lx2), (y :: ly1 ++ ly2).
  split; [rewrite Ex at 1; apply Permutation_sym, Permutation_middle |].
  split; [rewrite Ey at 1; apply Permutation_sym, Permutation_middle |].
  unfold createDependencies. rewrite Htracing. cbn [database queue storage notifer app].
  split.
  - destruct (register_each_first_failure [] (lx1 ++ lx2) x tracer errx
                (Forall_nil _) Hx (Forall_nil _) Hwx Hex
                (mkDependencies (Some tracer) None None None None) eq_refl) as [done Hrun].
    cbn [app] in Hrun. rewrite Hrun. now exists done.
  - destruct (register_each_first_failure [] (ly1 ++ ly2) y tracer erry
                (Forall_nil _) Hy (Forall_nil _) Hwy Hey
                (mkDependencies (Some tracer) None None None None) eq_refl) as [done Hrun].
    cbn [app] in Hrun. rewrite Hrun. now exists done.
Qed.

End CreateDependenciesProofs.

Lemma createDependencies_any_order_witness :
  exists deps1 deps2 mc err1 err2,
    createDependencies registry known_providers ["queue"; "database"] =
      returned (deps1, mc, err1)
    /\ createDependencies (rev registry) known_providers ["queue"; "database"] =
         returned (deps2, mc, err2)
    /\ (err1 = None <-> err2 = None)
    /\ (err1 = None -> deps1 = deps2)
    /\ (forall deps,
          deps1 = Some deps ->
          (slices_Contains ["queue"; "database"] DatabaseDependency = false ->
           database deps = None)
          /\ (slices_Contains ["queue"; "database"] QueueDependency = false ->
              queue deps = None)
          /\ (slices_Contains ["queue"; "database"] StorageDependency = false ->
              storage deps = None)
          /\ (slices_Contains ["queue"; "database"] NotifierDependency = false ->
              notifer deps = None)).
Proof.
  apply (@createDependencies_any_order every_provider_opens known_providers ["queue"; "database"]
           registry (rev registry)).
  - apply Permutation_refl.
  - apply Permutation_rev.
Defined.

Lemma createDependencies_either_error_witness :
  exists entries1 entries2,
    Permutation registry entries1 /\ Permutation registry entries2
    /\ (exists deps,
          createDependencies entries1 two_unknown_providers ["database"; "queue"] =
            returned
              (Some deps, ["logger.Sync"; "tracingCloser"],
               Some (fmt_Errorf ("unable to open " ++ strconv_Quote "postgres" ++ " database")
                       errProviderNotFound)))
    /\ (exists deps,
          createDependencies entries2 two_unknown_providers ["database"; "queue"] =
            returned
              (Some deps, ["logger.Sync"; "tracingCloser"],
               Some (fmt_Errorf ("unable to open " ++ strconv_Quote "kafka" ++ " queue")
                       errProviderNotFound))).
Proof.
  apply (@createDependencies_either_error every_provider_opens two_unknown_providers ["database"; "queue"]
           (DatabaseDependency, registerDatabase) (QueueDependency, registerQueue)
           tt "tracingCloser").
  - reflexivity.
  - now left.
  - right. now left.
  - reflexivity.
  - reflexivity.
  - reflexivity.
  - reflexivity.
Defined.
